(** * Weather-App: the state-and-fetch orchestration of [src/App.js]

    A shallow embedding of the [App] component: its seven [useState] cells,
    the debounced asynchronous function [fetchWeatherData], the two
    [useEffect] hooks, [toggleUnit] and [handleRefresh], together with the
    parts of the platform they call (JSON, [localStorage], [Date], [fetch],
    the debounce timer).  The component is modelled as a deterministic
    transition system over an explicit world; the environment (the user,
    the clock, the network) supplies the events.

    Conventions.  JavaScript runs each callback to completion, so one event
    is one step: the code it starts runs up to its next [await] (or to its
    end), then React renders the state updates and runs the effects whose
    dependencies changed.  An invocation of the asynchronous function is
    kept as the [await] it is suspended at.  A state setter writes its cell
    whenever it is called; what React does with an update that arrives
    after the component is gone is not modelled, the call itself is. *)

From Stdlib Require Import ZArith NArith Ascii String List Bool Lia.
From stdpp Require Import gmap strings list fin_maps.

Set Warnings "-register-all".

(** ** JavaScript values

    Everything the component stores is a JavaScript value that came out of
    [JSON.parse], out of [response.json()], or is a literal of the source.
    A number is kept as the decimal literal that denotes it: the rounding of
    literals to IEEE doubles, and with it the shortest form in which
    JavaScript prints a number, is outside this model.  An object is the
    list of its members in the order of the text it was parsed from (the
    reordering of integer-like keys is outside the model too); none of this
    is looked at by the component, which passes the payloads through. *)

Inductive value : Type :=
| VUndefined
| VNull
| VBool (b : bool)
| VNum (lit : string)
| VStr (s : string)
| VArr (items : list value)
| VObj (members : list (string * value)).

(** Induction principle that also covers the values nested in arrays and
    objects. *)
Fixpoint value_nested_ind (P : value → Prop)
    (Hundef : P VUndefined) (Hnull : P VNull)
    (Hbool : ∀ b, P (VBool b)) (Hnum : ∀ lit, P (VNum lit))
    (Hstr : ∀ s, P (VStr s))
    (Harr : ∀ items, Forall P items → P (VArr items))
    (Hobj : ∀ members, Forall (λ kv, P kv.2) members → P (VObj members))
    (v : value) {struct v} : P v :=
  let rec := value_nested_ind P Hundef Hnull Hbool Hnum Hstr Harr Hobj in
  match v with
  | VUndefined => Hundef
  | VNull => Hnull
  | VBool b => Hbool b
  | VNum lit => Hnum lit
  | VStr s => Hstr s
  | VArr items =>
      Harr items
        ((fix go (l : list value) : Forall P l :=
            match l with
            | [] => Forall_nil_2 P
            | x :: l' => Forall_cons_2 P x l' (rec x) (go l')
            end) items)
  | VObj members =>
      Hobj members
        ((fix go (l : list (string * value)) : Forall (λ kv, P kv.2) l :=
            match l with
            | [] => Forall_nil_2 _
            | kv :: l' => Forall_cons_2 (λ kv, P kv.2) kv l' (rec kv.2) (go l')
            end) members)
  end.

(** [Object.is] on the values above (structural: the model has no object
    identity). React compares hook dependencies and state updates with it. *)
Fixpoint Object_is (a b : value) {struct a} : bool :=
  match a, b with
  | VUndefined, VUndefined => true
  | VNull, VNull => true
  | VBool x, VBool y => Bool.eqb x y
  | VNum x, VNum y => String.eqb x y
  | VStr x, VStr y => String.eqb x y
  | VArr xs, VArr ys =>
      (fix go (l1 l2 : list value) : bool :=
         match l1, l2 with
         | [], [] => true
         | x :: l1', y :: l2' => Object_is x y && go l1' l2'
         | _, _ => false
         end) xs ys
  | VObj xs, VObj ys =>
      (fix go (l1 l2 : list (string * value)) : bool :=
         match l1, l2 with
         | [], [] => true
         | (k1, x) :: l1', (k2, y) :: l2' =>
             String.eqb k1 k2 && Object_is x y && go l1' l2'
         | _, _ => false
         end) xs ys
  | _, _ => false
  end.

(** Does the literal of a number denote zero?  Only the digits of the
    mantissa matter. *)
Fixpoint mantissa_is_zero (cs : list ascii) : bool :=
  match cs with
  | [] => true
  | c :: cs' =>
      if (Ascii.eqb c "e" || Ascii.eqb c "E")%bool then true
      else if (Ascii.eqb c "-" || Ascii.eqb c "." || Ascii.eqb c "0")%bool
           then mantissa_is_zero cs'
           else false
  end.

(** [if (v)]: JavaScript truthiness. *)
Definition truthy (v : value) : bool :=
  match v with
  | VUndefined | VNull => false
  | VBool b => b
  | VNum lit => negb (mantissa_is_zero (list_ascii_of_string lit))
  | VStr s => negb (String.eqb s "")
  | VArr _ | VObj _ => true
  end.

Fixpoint assoc (k : string) (ms : list (string * value)) : option value :=
  match ms with
  | [] => None
  | (k', v) :: ms' => if String.eqb k k' then Some v else assoc k ms'
  end.

(** [v.k] for one of the four keys the component reads; none of them lives
    on a prototype, so only objects can have them. *)
Definition get_prop (v : value) (k : string) : value :=
  match v with
  | VObj ms => default VUndefined (assoc k ms)
  | _ => VUndefined
  end.

Fixpoint join (sep : string) (parts : list string) : string :=
  match parts with
  | [] => ""
  | [p] => p
  | p :: rest => p +:+ sep +:+ join sep rest
  end.

(** The abstract operation ToString, which a template literal applies to
    each substitution (a number prints as its literal). *)
Fixpoint ToString (v : value) : string :=
  match v with
  | VUndefined => "undefined"
  | VNull => "null"
  | VBool true => "true"
  | VBool false => "false"
  | VNum lit => lit
  | VStr s => s
  | VArr items =>
      join ","
        (map (λ x, match x with
                   | VUndefined | VNull => ""
                   | _ => ToString x
                   end) items)
  | VObj _ => "[object Object]"
  end.

(** ** JSON *)

Module JSON.

Definition is_ws (c : ascii) : bool :=
  (Ascii.eqb c " " || Ascii.eqb c "009" || Ascii.eqb c "010"
   || Ascii.eqb c "013")%bool.

Fixpoint skip_ws (cs : list ascii) : list ascii :=
  match cs with
  | c :: cs' => if is_ws c then skip_ws cs' else cs
  | [] => []
  end.

(** [strip lit cs]: what follows [lit] at the head of [cs]. *)
Fixpoint strip (lit cs : list ascii) : option (list ascii) :=
  match lit, cs with
  | [], _ => Some cs
  | l :: lit', c :: cs' => if Ascii.eqb l c then strip lit' cs' else None
  | _ :: _, [] => None
  end.

Definition is_digit (c : ascii) : bool :=
  ((48 <=? nat_of_ascii c) && (nat_of_ascii c <=? 57))%nat.

Fixpoint span_digits (cs : list ascii) : list ascii * list ascii :=
  match cs with
  | c :: cs' =>
      if is_digit c
      then let '(ds, r) := span_digits cs' in (c :: ds, r)
      else ([], cs)
  | [] => ([], [])
  end.

Definition hex_val (c : ascii) : option N :=
  let n := N_of_ascii c in
  if ((48 <=? n) && (n <=? 57))%N then Some (n - 48)%N
  else if ((65 <=? n) && (n <=? 70))%N then Some (n - 55)%N
  else if ((97 <=? n) && (n <=? 102))%N then Some (n - 87)%N
  else None.

(** The grammar of a JSON number: an optional minus sign; then a single
    zero, or a digit from 1 to 9 and any digits; then optionally a point
    and at least one digit; then optionally e or E, an optional sign and
    at least one digit. *)
Definition parse_number (cs : list ascii)
  : option (list ascii * list ascii) :=
  let '(sign, r0) :=
    match strip ["-"%char] cs with
    | Some r => (["-"%char], r)
    | None => ([], cs)
    end in
  let int_part :=
    match strip ["0"%char] r0 with
    | Some r1 => Some (["0"%char], r1)
    | None =>
        match span_digits r0 with
        | ([], _) => None
        | (ds, r1) => Some (ds, r1)
        end
    end in
  match int_part with
  | None => None
  | Some (ds, r1) =>
      let frac_part :=
        match strip ["."%char] r1 with
        | Some r2 =>
            match span_digits r2 with
            | ([], _) => None
            | (fs, r3) => Some ("."%char :: fs, r3)
            end
        | None => Some ([], r1)
        end in
      match frac_part with
      | None => None
      | Some (fs, r3) =>
          let exponent (e : ascii) (r4 : list ascii) :=
            let '(sg, r5) :=
              match strip ["+"%char] r4, strip ["-"%char] r4 with
              | Some r, _ => (["+"%char], r)
              | None, Some r => (["-"%char], r)
              | None, None => ([], r4)
              end in
            match span_digits r5 with
            | ([], _) => None
            | (es, r6) => Some (sign ++ ds ++ fs ++ e :: sg ++ es, r6)
            end in
          match strip ["e"%char] r3, strip ["E"%char] r3 with
          | Some r4, _ => exponent "e"%char r4
          | None, Some r4 => exponent "E"%char r4
          | None, None => Some (sign ++ ds ++ fs, r3)
          end
      end
  end.

(** The characters of a string literal before they are put together:
    a character written as it is, or a [\uXXXX] escape. *)
Inductive string_item : Type :=
| Raw (c : ascii)
| Escaped (unit : N).

Definition cons_item (i : string_item)
    (r : option (list string_item * list ascii))
  : option (list string_item * list ascii) :=
  match r with
  | Some (its, rest) => Some (i :: its, rest)
  | None => None
  end.

(** The character that a two-character escape stands for. *)
Definition simple_escape (c : ascii) : option ascii :=
  if Ascii.eqb c "034" then Some "034"%char
  else if Ascii.eqb c "\" then Some "\"%char
  else if Ascii.eqb c "/" then Some "/"%char
  else if Ascii.eqb c "b" then Some "008"%char
  else if Ascii.eqb c "f" then Some "012"%char
  else if Ascii.eqb c "n" then Some "010"%char
  else if Ascii.eqb c "r" then Some "013"%char
  else if Ascii.eqb c "t" then Some "009"%char
  else None.

Fixpoint parse_string_items (cs : list ascii)
  : option (list string_item * list ascii) :=
  match cs with
  | [] => None
  | c :: r =>
      if Ascii.eqb c "034" then Some ([], r)
      else if Ascii.eqb c "\" then
        match r with
        | [] => None
        | e :: r1 =>
            match simple_escape e with
            | Some x => cons_item (Raw x) (parse_string_items r1)
            | None =>
                if Ascii.eqb e "u" then
                  match r1 with
                  | h1 :: h2 :: h3 :: h4 :: r' =>
                      match hex_val h1, hex_val h2, hex_val h3, hex_val h4
                      with
                      | Some a, Some b, Some c', Some d =>
                          cons_item
                            (Escaped (((a * 16 + b) * 16 + c') * 16 + d)%N)
                            (parse_string_items r')
                      | _, _, _, _ => None
                      end
                  | _ => None
                  end
                else None
            end
        end
      else if (nat_of_ascii c <? 32)%nat then None
      else cons_item (Raw c) (parse_string_items r)
  end.

Definition byte (n : N) : ascii := ascii_of_N n.

(** UTF-8 bytes of a code point. *)
Definition utf8 (n : N) : list ascii :=
  (if n <? 128 then [byte n]
   else if n <? 2048 then [byte (192 + n / 64); byte (128 + n mod 64)]
   else if n <? 65536 then
     [byte (224 + n / 4096); byte (128 + (n / 64) mod 64);
      byte (128 + n mod 64)]
   else
     [byte (240 + n / 262144); byte (128 + (n / 4096) mod 64);
      byte (128 + (n / 64) mod 64); byte (128 + n mod 64)])%N.

Definition is_high_surrogate (n : N) : bool := ((55296 <=? n) && (n <=? 56319))%N.
Definition is_low_surrogate (n : N) : bool := ((56320 <=? n) && (n <=? 57343))%N.

(** A high surrogate escape followed by a low one is one code point. *)
Fixpoint assemble (its : list string_item) : list ascii :=
  match its with
  | [] => []
  | Raw c :: rest => c :: assemble rest
  | Escaped hi :: rest =>
      match rest with
      | Escaped lo :: rest' =>
          if (is_high_surrogate hi && is_low_surrogate lo)%bool
          then utf8 (65536 + (hi - 55296) * 1024 + (lo - 56320))%N
                 ++ assemble rest'
          else utf8 hi ++ assemble rest
      | _ => utf8 hi ++ assemble rest
      end
  end.

(** The rest of a string literal, after its opening quote. *)
Definition parse_string (cs : list ascii) : option (string * list ascii) :=
  match parse_string_items cs with
  | Some (its, rest) => Some (string_of_list_ascii (assemble its), rest)
  | None => None
  end.

(** A later member with the same key replaces the value of the earlier
    one, as [JSON.parse] does. *)
Fixpoint obj_set (k : string) (v : value) (ms : list (string * value))
  : list (string * value) :=
  match ms with
  | [] => [(k, v)]
  | (k', v') :: ms' =>
      if String.eqb k k' then (k', v) :: ms' else (k', v') :: obj_set k v ms'
  end.

(** The next character that is not white space, and what follows it. *)
Definition next (cs : list ascii) : option (ascii * list ascii) :=
  match skip_ws cs with
  | c :: r => Some (c, r)
  | [] => None
  end.

(** Recursive descent; [fuel] bounds the nesting and the number of
    elements, and [parse] below gives it twice the length of the text,
    which is always enough ([parse_needs_no_more_fuel]). *)
Fixpoint parse_value (fuel : nat) (cs : list ascii) {struct fuel}
  : option (value * list ascii) :=
  match fuel with
  | O => None
  | S fuel' =>
      match next cs with
      | None => None
      | Some (c, r) =>
          if Ascii.eqb c "n" then
            (λ r', (VNull, r')) <$> strip ["u"; "l"; "l"]%char r
          else if Ascii.eqb c "t" then
            (λ r', (VBool true, r')) <$> strip ["r"; "u"; "e"]%char r
          else if Ascii.eqb c "f" then
            (λ r', (VBool false, r')) <$> strip ["a"; "l"; "s"; "e"]%char r
          else if Ascii.eqb c "034" then
            match parse_string r with
            | Some (s, r') => Some (VStr s, r')
            | None => None
            end
          else if Ascii.eqb c "[" then
            match next r with
            | Some (c', r') =>
                if Ascii.eqb c' "]" then Some (VArr [], r')
                else
                  match parse_elements fuel' r with
                  | Some (vs, r'') => Some (VArr vs, r'')
                  | None => None
                  end
            | None => None
            end
          else if Ascii.eqb c "{" then
            match next r with
            | Some (c', r') =>
                if Ascii.eqb c' "}" then Some (VObj [], r')
                else
                  match parse_members fuel' [] r with
                  | Some (ms, r'') => Some (VObj ms, r'')
                  | None => None
                  end
            | None => None
            end
          else
            match parse_number (c :: r) with
            | Some (lit, r') => Some (VNum (string_of_list_ascii lit), r')
            | None => None
            end
      end
  end
with parse_elements (fuel : nat) (cs : list ascii) {struct fuel}
  : option (list value * list ascii) :=
  match fuel with
  | O => None
  | S fuel' =>
      match parse_value fuel' cs with
      | Some (v, r) =>
          match next r with
          | Some (c, r') =>
              if Ascii.eqb c "," then
                match parse_elements fuel' r' with
                | Some (vs, r'') => Some (v :: vs, r'')
                | None => None
                end
              else if Ascii.eqb c "]" then Some ([v], r')
              else None
          | None => None
          end
      | None => None
      end
  end
with parse_members (fuel : nat) (acc : list (string * value))
    (cs : list ascii) {struct fuel}
  : option (list (string * value) * list ascii) :=
  match fuel with
  | O => None
  | S fuel' =>
      match next cs with
      | Some (q, r) =>
          if Ascii.eqb q "034" then
            match parse_string r with
            | Some (k, r1) =>
                match next r1 with
                | Some (colon, r2) =>
                    if Ascii.eqb colon ":" then
                      match parse_value fuel' r2 with
                      | Some (v, r3) =>
                          match next r3 with
                          | Some (c, r4) =>
                              if Ascii.eqb c "," then
                                parse_members fuel' (obj_set k v acc) r4
                              else if Ascii.eqb c "}" then
                                Some (obj_set k v acc, r4)
                              else None
                          | None => None
                          end
                      | None => None
                      end
                    else None
                | None => None
                end
            | None => None
            end
          else None
      | None => None
      end
  end.

(** [JSON.parse(text)]; [None] stands for the [SyntaxError] it throws. *)
Definition parse (text : string) : option value :=
  let cs := list_ascii_of_string text in
  match parse_value (2 * length cs + 2) cs with
  | Some (v, r) =>
      match skip_ws r with
      | [] => Some v
      | _ => None
      end
  | None => None
  end.

Definition hex_digit (n : N) : ascii :=
  if (n <? 10)%N then ascii_of_N (48 + n) else ascii_of_N (87 + n).

Fixpoint quote_chars (cs : list ascii) : list ascii :=
  match cs with
  | [] => []
  | c :: cs' =>
      let n := N_of_ascii c in
      (if Ascii.eqb c "034" then ["\"; "034"]
       else if Ascii.eqb c "\" then ["\"; "\"]
       else if Ascii.eqb c "008" then ["\"; "b"]
       else if Ascii.eqb c "012" then ["\"; "f"]
       else if Ascii.eqb c "010" then ["\"; "n"]
       else if Ascii.eqb c "013" then ["\"; "r"]
       else if Ascii.eqb c "009" then ["\"; "t"]
       else if (n <? 32)%N
            then ["\"; "u"; "0"; "0"; hex_digit (n / 16); hex_digit (n mod 16)]
            else [c])%char ++ quote_chars cs'
  end.

(** QuoteJSONString. *)
Definition quote (s : string) : string :=
  string_of_list_ascii
    ("034" :: quote_chars (list_ascii_of_string s) ++ ["034"])%char.

(** SerializeJSONProperty: [None] stands for [undefined], which an
    object skips and an array prints as [null]. *)
Fixpoint serialize (v : value) : option string :=
  match v with
  | VUndefined => None
  | VNull => Some "null"
  | VBool true => Some "true"
  | VBool false => Some "false"
  | VNum lit => Some lit
  | VStr s => Some (quote s)
  | VArr items =>
      Some ("[" +:+ join "," (map (λ x, default "null" (serialize x)) items)
                +:+ "]")
  | VObj members =>
      Some ("{" +:+
            join ","
              ((fix go (ms : list (string * value)) : list string :=
                  match ms with
                  | [] => []
                  | (k, x) :: ms' =>
                      match serialize x with
                      | Some t => (quote k +:+ ":" +:+ t) :: go ms'
                      | None => go ms'
                      end
                  end) members)
            +:+ "}")
  end.

(** [JSON.stringify(v)]; the result is a value because
    [JSON.stringify(undefined)] is [undefined]. *)
Definition stringify (v : value) : value :=
  match serialize v with
  | Some t => VStr t
  | None => VUndefined
  end.

End JSON.

(** ** [Date]

    [new Date().toISOString()] on a clock that counts the milliseconds since
    the epoch. *)

Module Date.

Fixpoint digits (width : nat) (n : Z) : list ascii :=
  match width with
  | O => []
  | S w => digits w (n / 10) ++ [ascii_of_N (Z.to_N (48 + n mod 10))]
  end.

(** Year, month and day of a day count since 1970-01-01 in the proleptic
    Gregorian calendar. *)
Definition civil_from_days (days : Z) : Z * Z * Z :=
  let z := (days + 719468)%Z in
  let era := (z / 146097)%Z in
  let doe := (z - era * 146097)%Z in
  let yoe := ((doe - doe / 1460 + doe / 36524 - doe / 146096) / 365)%Z in
  let doy := (doe - (365 * yoe + yoe / 4 - yoe / 100))%Z in
  let mp := ((5 * doy + 2) / 153)%Z in
  let d := (doy - (153 * mp + 2) / 5 + 1)%Z in
  let m := (if mp <? 10 then mp + 3 else mp - 9)%Z in
  let y := (yoe + era * 400 + (if m <=? 2 then 1 else 0))%Z in
  (y, m, d).

Definition toISOString (ms : N) : string :=
  let t := Z.of_N ms in
  let '(y, m, d) := civil_from_days (t / 86400000) in
  let r := (t mod 86400000)%Z in
  string_of_list_ascii
    ((if (y <=? 9999)%Z then digits 4 y else "+"%char :: digits 6 y)
     ++ "-"%char :: digits 2 m ++ "-"%char :: digits 2 d
     ++ "T"%char :: digits 2 (r / 3600000)
     ++ ":"%char :: digits 2 (r / 60000 mod 60)
     ++ ":"%char :: digits 2 (r / 1000 mod 60)
     ++ "."%char :: digits 3 (r mod 1000) ++ ["Z"%char]).

End Date.

(** ** Errors and responses *)

Record js_error : Type := { name : string; message : string }.

(** [new Error(msg)]. *)
Definition Error (msg : string) : js_error := {| name := "Error"; message := msg |}.

(** What [JSON.parse] and [response.json()] throw on text that is not JSON.
    The wording of the message differs between engines; the model fixes
    one. *)
Definition SyntaxError : js_error :=
  {| name := "SyntaxError"; message := "Unexpected token in JSON" |}.

(** A [Response] as far as line 33 looks at it. *)
Record Response : Type := { status : N }.

(** [response.ok]: the status is in the range 200-299. *)
Definition ok (r : Response) : bool :=
  ((200 <=? status r) && (status r <=? 299))%N.

(** ** The state of the component: the seven [useState] cells (lines 13-19) *)

Record UIState : Type := {
  city : value;
  weatherData : value;
  forecastData : value;
  isLoading : bool;
  error : value;
  unit : string;
  lastUpdated : value
}.

Definition DEFAULT_CITY : string := "Delhi".
Definition CACHE_KEY : string := "weatherAppCache".

(** The arguments of the [useState] calls. *)
Definition initial_state : UIState :=
  {| city := VStr DEFAULT_CITY; weatherData := VNull; forecastData := VNull;
     isLoading := true; error := VNull; unit := "celsius";
     lastUpdated := VNull |}.

(** ** Suspended invocations of the asynchronous function

    The function of lines 22-57 stops at each of its four [await]s.  A
    [phase] is the rest of one invocation: the [await] it is suspended at
    and the local variables that are still live there. *)

Inductive phase : Type :=
| AwaitWeatherResponse (cityName : value)                        (* line 26 *)
| AwaitForecastResponse (cityName : value) (weatherResponse : Response)
                                                                 (* line 29 *)
| AwaitWeatherJson (cityName : value) (forecastResponse : Response)
                                                                 (* line 37 *)
| AwaitForecastJson (cityName : value) (weatherData : value)     (* line 38 *)
| Finished (caught : option js_error).
  (* the invocation is over; [caught] is the exception its [catch] block
     received, if it ran *)

(** How an awaited promise settles. *)
Inductive settlement : Type :=
| FetchFulfilled (r : Response)     (* [fetch(url)] resolved to a response *)
| FetchRejected (e : js_error)      (* [fetch(url)] rejected: network error *)
| BodyFulfilled (text : string)     (* the body arrived; [json()] parses it *)
| BodyRejected (e : js_error).      (* the body could not be read *)

(** What the synchronous code of lines 40-51 meets on the platform: the
    milliseconds that pass between its two [new Date()], and the exception
    [localStorage.setItem] throws, if any (a full or disabled storage). *)
Record sync_io : Type := { date_gap : N; setItem_throws : option js_error }.

Definition calm : sync_io := {| date_gap := 0; setItem_throws := None |}.

Inductive endpoint : Type := Weather | Forecast.

(** One HTTP GET: the invocation that issued it, the endpoint, the URL. *)
Record request : Type := { issuer : nat; target : endpoint; url : string }.

Inductive lifecycle : Type := Fresh | Live | TornDown.

(** ** The world *)

Record world : Type := {
  ui : UIState;                   (* the state cells *)
  store : gmap string string;     (* localStorage *)
  pending : option (value * N);   (* the debounce slot: arguments, deadline *)
  tasks : gmap nat phase;         (* invocations of the async function *)
  next_task : nat;
  now : N;                        (* the clock, in milliseconds *)
  requests : list request;        (* HTTP requests issued, newest first *)
  stage : lifecycle;              (* of the component *)
  API_KEY : value                 (* process.env.REACT_APP_API_KEY, line 8 *)
}.

Definition with_ui (f : UIState → UIState) (w : world) : world :=
  {| ui := f (ui w); store := store w; pending := pending w; tasks := tasks w;
     next_task := next_task w; now := now w; requests := requests w;
     stage := stage w; API_KEY := API_KEY w |}.

Definition with_store (m : gmap string string) (w : world) : world :=
  {| ui := ui w; store := m; pending := pending w; tasks := tasks w;
     next_task := next_task w; now := now w; requests := requests w;
     stage := stage w; API_KEY := API_KEY w |}.

Definition with_pending (p : option (value * N)) (w : world) : world :=
  {| ui := ui w; store := store w; pending := p; tasks := tasks w;
     next_task := next_task w; now := now w; requests := requests w;
     stage := stage w; API_KEY := API_KEY w |}.

Definition with_task (id : nat) (p : phase) (w : world) : world :=
  {| ui := ui w; store := store w; pending := pending w;
     tasks := <[id := p]> (tasks w);
     next_task := next_task w; now := now w; requests := requests w;
     stage := stage w; API_KEY := API_KEY w |}.

Definition with_next_task (n : nat) (w : world) : world :=
  {| ui := ui w; store := store w; pending := pending w; tasks := tasks w;
     next_task := n; now := now w; requests := requests w;
     stage := stage w; API_KEY := API_KEY w |}.

Definition with_now (t : N) (w : world) : world :=
  {| ui := ui w; store := store w; pending := pending w; tasks := tasks w;
     next_task := next_task w; now := t; requests := requests w;
     stage := stage w; API_KEY := API_KEY w |}.

Definition with_requests (l : list request) (w : world) : world :=
  {| ui := ui w; store := store w; pending := pending w; tasks := tasks w;
     next_task := next_task w; now := now w; requests := l;
     stage := stage w; API_KEY := API_KEY w |}.

Definition with_stage (s : lifecycle) (w : world) : world :=
  {| ui := ui w; store := store w; pending := pending w; tasks := tasks w;
     next_task := next_task w; now := now w; requests := requests w;
     stage := s; API_KEY := API_KEY w |}.

(** The world before the component is mounted. *)
Definition boot (key : value) (storage : gmap string string) (t : N) : world :=
  {| ui := initial_state; store := storage; pending := None; tasks := ∅;
     next_task := 0; now := t; requests := []; stage := Fresh;
     API_KEY := key |}.

(** ** Statements: a state monad with exceptions

    A statement of the source runs on the world and either completes with a
    result or throws; what it changed before it threw stays changed. *)

Inductive result (A : Type) : Type :=
| Normal (a : A)
| Throw (e : js_error).
Arguments Normal {A} a.
Arguments Throw {A} e.

Definition M (A : Type) : Type := world → result A * world.

#[global] Instance M_ret : MRet M := λ A a w, (Normal a, w).
#[global] Instance M_bind : MBind M := λ A B f m w,
  match m w with
  | (Normal a, w') => f a w'
  | (Throw e, w') => (Throw e, w')
  end.

Definition throw {A : Type} (e : js_error) : M A := λ w, (Throw e, w).
Definition modify (f : world → world) : M () := λ w, (Normal (), f w).
Definition read {A : Type} (f : world → A) : M A := λ w, (Normal (f w), w).

(** A state cell gets a new value; the other cells stay. *)
Definition put_city (x : value) (s : UIState) : UIState :=
  {| city := x; weatherData := weatherData s;
     forecastData := forecastData s; isLoading := isLoading s;
     error := error s; unit := unit s; lastUpdated := lastUpdated s |}.

Definition put_weatherData (x : value) (s : UIState) : UIState :=
  {| city := city s; weatherData := x;
     forecastData := forecastData s; isLoading := isLoading s;
     error := error s; unit := unit s; lastUpdated := lastUpdated s |}.

Definition put_forecastData (x : value) (s : UIState) : UIState :=
  {| city := city s; weatherData := weatherData s;
     forecastData := x; isLoading := isLoading s;
     error := error s; unit := unit s; lastUpdated := lastUpdated s |}.

Definition put_isLoading (x : bool) (s : UIState) : UIState :=
  {| city := city s; weatherData := weatherData s;
     forecastData := forecastData s; isLoading := x;
     error := error s; unit := unit s; lastUpdated := lastUpdated s |}.

Definition put_error (x : value) (s : UIState) : UIState :=
  {| city := city s; weatherData := weatherData s;
     forecastData := forecastData s; isLoading := isLoading s;
     error := x; unit := unit s; lastUpdated := lastUpdated s |}.

Definition put_unit (x : string) (s : UIState) : UIState :=
  {| city := city s; weatherData := weatherData s;
     forecastData := forecastData s; isLoading := isLoading s;
     error := error s; unit := x; lastUpdated := lastUpdated s |}.

Definition put_lastUpdated (x : value) (s : UIState) : UIState :=
  {| city := city s; weatherData := weatherData s;
     forecastData := forecastData s; isLoading := isLoading s;
     error := error s; unit := unit s; lastUpdated := x |}.

(** The state setters returned by [useState]. *)
Definition setCity (x : value) : M () := modify (with_ui (put_city x)).

Definition setWeatherData (x : value) : M () := modify (with_ui (put_weatherData x)).

Definition setForecastData (x : value) : M () := modify (with_ui (put_forecastData x)).

Definition setIsLoading (x : bool) : M () := modify (with_ui (put_isLoading x)).

Definition setError (x : value) : M () := modify (with_ui (put_error x)).

(** [setUnit] is only ever called with an updater function (line 78). *)
Definition setUnit (f : string → string) : M () :=
  modify (with_ui (λ s, put_unit (f (unit s)) s)).

Definition setLastUpdated (x : value) : M () := modify (with_ui (put_lastUpdated x)).

(** ** The platform calls of the component *)

Module localStorage.

(** [localStorage.getItem(k)]: the stored string, or [null]. *)
Definition getItem (k : string) : M value :=
  read (λ w, match store w !! k with
             | Some s => VStr s
             | None => VNull
             end).

(** [localStorage.setItem(k, v)] stores the string of [v], unless the
    platform refuses the write. *)
Definition setItem (io : sync_io) (k : string) (v : value) : M () :=
  match setItem_throws io with
  | Some e => throw e
  | None => modify (λ w, with_store (<[k := ToString v]> (store w)) w)
  end.

End localStorage.

(** [JSON.parse(x)] as a statement: the argument is turned into a string
    first, and text that is not JSON throws. *)
Definition JSON_parse (x : value) : M value :=
  match JSON.parse (ToString x) with
  | Some v => mret v
  | None => throw SyntaxError
  end.

(** [response.json()] once the body has arrived as [text]. *)
Definition json (text : string) : M value :=
  match JSON.parse text with
  | Some v => mret v
  | None => throw SyntaxError
  end.

(** [new Date().toISOString()]. *)
Definition new_Date_toISOString : M string :=
  read (λ w, Date.toISOString (now w)).

(** The clock moves on while synchronous code runs. *)
Definition elapse (d : N) : M () := modify (λ w, with_now (now w + d)%N w).

(** The template literals of lines 27 and 30. *)
Definition endpoint_url (ep : endpoint) (cityName key : value) : string :=
  "https://api.openweathermap.org/data/2.5/"
  +:+ match ep with Weather => "weather" | Forecast => "forecast" end
  +:+ "?q=" +:+ ToString cityName +:+ "&appid=" +:+ ToString key
  +:+ "&units=metric".

(** [fetch(url)]: the request goes out; the promise is awaited by the
    caller. *)
Definition fetch (id : nat) (ep : endpoint) (cityName : value) : M () :=
  modify (λ w,
    with_requests
      ({| issuer := id; target := ep;
          url := endpoint_url ep cityName (API_KEY w) |} :: requests w) w).

(** ** The asynchronous function of lines 22-57 *)

(** How a stretch of the [try] block ends: at an [await], or at the end of
    the block. *)
Inductive completion : Type :=
| Suspend (p : phase)
| Return.

(** [try { body } catch (err) { handler } finally { final }] around a body
    that may suspend: the handler and the final block run when the body is
    left for good. *)
Definition try_catch_finally (body : M completion)
    (handler : js_error → M ()) (final : M ()) : M phase :=
  λ w, match body w with
       | (Normal (Suspend p), w') => (Normal p, w')
       | (Normal Return, w') => (final ;; mret (Finished None)) w'
       | (Throw err, w') =>
           (handler err ;; final ;; mret (Finished (Some err))) w'
       end.

(** Lines 52-53 and 54-55. *)
Definition catch_block (err : js_error) : M () := setError (VStr (message err)).
Definition finally_block : M () := setIsLoading false.

(** Lines 26-28: the [try] block up to its first [await]. *)
Definition try_enter (id : nat) (cityName : value) : M completion :=
  fetch id Weather cityName ;;
  mret (Suspend (AwaitWeatherResponse cityName)).

(** The [try] block from the [await] of phase [p] on, once the awaited
    promise has settled with [s]; [None] when [s] is not a settlement of
    what [p] awaits. *)
Definition try_resume (id : nat) (p : phase) (s : settlement) (io : sync_io)
  : option (M completion) :=
  match p, s with
  | AwaitWeatherResponse cityName, FetchFulfilled weatherResponse =>
      Some (fetch id Forecast cityName ;;
            mret (Suspend (AwaitForecastResponse cityName weatherResponse)))
  | AwaitForecastResponse cityName weatherResponse,
    FetchFulfilled forecastResponse =>
      Some (if negb (ok weatherResponse) || negb (ok forecastResponse)
            then throw (Error "City not found")
            else mret (Suspend (AwaitWeatherJson cityName forecastResponse)))
  | AwaitWeatherJson cityName forecastResponse, BodyFulfilled text =>
      Some (weatherData ← json text;
            mret (Suspend (AwaitForecastJson cityName weatherData)))
  | AwaitForecastJson cityName weatherData, BodyFulfilled text =>
      Some (forecastData ← json text;
            setWeatherData weatherData ;;
            setForecastData forecastData ;;
            stamp ← new_Date_toISOString;
            setLastUpdated (VStr stamp) ;;
            elapse (date_gap io) ;;
            stamp' ← new_Date_toISOString;
            let cacheData :=
              VObj [("city", cityName); ("weatherData", weatherData);
                    ("forecastData", forecastData);
                    ("lastUpdated", VStr stamp')] in
            localStorage.setItem io CACHE_KEY (JSON.stringify cacheData) ;;
            mret Return)
  | AwaitWeatherResponse _, FetchRejected err
  | AwaitForecastResponse _ _, FetchRejected err
  | AwaitWeatherJson _ _, BodyRejected err
  | AwaitForecastJson _ _, BodyRejected err => Some (throw err)
  | _, _ => None
  end.

(** The call of the function: lines 23-24, then the [try] statement. *)
Definition async_enter (id : nat) (cityName : value) : M phase :=
  setIsLoading true ;;
  setError VNull ;;
  try_catch_finally (try_enter id cityName) catch_block finally_block.

(** The function goes on after an [await]. *)
Definition async_resume (id : nat) (p : phase) (s : settlement) (io : sync_io)
  : option (M phase) :=
  (λ body, try_catch_finally body catch_block finally_block)
    <$> try_resume id p s io.

(** ** The debounced function *)

Definition wait : N := 300.

(** Modelled from the spec: [debounce] comes from the package
    lodash.debounce (line 3), whose code is not under src/.  Section 4.3:
    the orchestrator has exactly one pending slot; a new call arriving
    before the window elapses discards the timer and restarts it with the
    new arguments; only the last call in a burst executes, after the window
    of 300 ms elapses with no further calls.

    [fetchWeatherData(cityName)] is a call of the debounced function. *)
Definition fetchWeatherData (cityName : value) : M () :=
  modify (λ w, with_pending (Some (cityName, now w + wait)%N) w).

(** The debounce timer calls the wrapped function: a new invocation of the
    asynchronous function starts and runs to its first [await]. *)
Definition invoke (cityName : value) : M () :=
  id ← read next_task;
  modify (with_next_task (S id)) ;;
  p ← async_enter id cityName;
  modify (with_task id p).

(** Modelled from the spec: the timer of [debounce] (not under src/), see
    [fetchWeatherData]: the pending call executes once its window has
    elapsed, and the slot is empty again. *)
Definition timers : M () :=
  slot ← read pending;
  t ← read now;
  match slot with
  | Some (cityName, deadline) =>
      if (deadline <=? t)%N
      then modify (with_pending None) ;; invoke cityName
      else mret ()
  | None => mret ()
  end.

(** ** The hooks and handlers of the component *)

(** Lines 61-71, in a render whose [city] is [city]. *)
Definition startup_effect (city : value) : M () :=
  raw ← localStorage.getItem CACHE_KEY;
  cachedData ← JSON_parse raw;
  (if truthy cachedData then
     setCity (get_prop cachedData "city") ;;
     setWeatherData (get_prop cachedData "weatherData") ;;
     setForecastData (get_prop cachedData "forecastData") ;;
     setLastUpdated (get_prop cachedData "lastUpdated") ;;
     setIsLoading false
   else mret ()) ;;
  fetchWeatherData (if truthy cachedData then get_prop cachedData "city"
                    else city).

(** Lines 73-75, in a render whose [city] is [city]. *)
Definition city_effect (city : value) : M () := fetchWeatherData city.

(** Lines 77-79. *)
Definition toggleUnit : M () :=
  setUnit (λ prevUnit,
    if String.eqb prevUnit "celsius" then "fahrenheit" else "celsius").

(** Lines 81-83, in a render whose [city] is [city]. *)
Definition handleRefresh (city : value) : M () := fetchWeatherData city.

(** After state updates React renders the component again and runs the
    effects whose dependencies changed.  [fetchWeatherData] is the same
    function in every render (the empty dependency list of line 58), so the
    second effect runs again exactly when [city] is not the [city] of the
    previous render; the first effect has no dependencies and never runs
    again.  A component that is not mounted is not rendered. *)
Definition rerender (rendered_city : value) : M () :=
  s ← read stage;
  c ← read (λ w, city (ui w));
  match s with
  | Live => if Object_is c rendered_city then mret () else city_effect c
  | _ => mret ()
  end.

(** The component is mounted: after the first render both effects run, in
    the order of the source and with the [city] of that render; their state
    updates are rendered afterwards. *)
Definition mount : M () :=
  c ← read (λ w, city (ui w));
  modify (with_stage Live) ;;
  startup_effect c ;;
  city_effect c ;;
  rerender c.

(** The component is removed.  Neither effect returns a cleanup function,
    so nothing of the component runs. *)
Definition unmount : M () := modify (with_stage TornDown).

(** ** The transition system *)

Inductive event : Type :=
| Mount
| SelectCity (c : string)      (* [CitySearch] calls [onCitySelect], line 89 *)
| ToggleUnit                   (* click, line 92 *)
| Refresh                      (* click, line 98 *)
| Unmount
| Advance (dt : N)             (* [dt] milliseconds pass *)
| Settle (id : nat) (s : settlement) (io : sync_io).
  (* the promise that invocation [id] awaits settles *)

Inductive outcome : Type :=
| Next (w : world)
| Uncaught (e : js_error)      (* an exception reaches React *)
| Invalid.                     (* the event cannot happen in this world *)

Definition run_M (m : M ()) (w : world) : outcome :=
  match m w with
  | (Normal _, w') => Next w'
  | (Throw e, _) => Uncaught e
  end.

(** One turn of the event loop: the code that the event starts, then the
    render that its state updates ask for. *)
Definition turn (code : value → M ()) : M () :=
  c ← read (λ w, city (ui w));
  code c ;;
  rerender c.

Definition step (e : event) (w : world) : outcome :=
  match e, stage w with
  | Mount, Fresh => run_M mount w
  | SelectCity c, Live => run_M (turn (λ _, setCity (VStr c))) w
  | ToggleUnit, Live => run_M (turn (λ _, toggleUnit)) w
  | Refresh, Live => run_M (turn handleRefresh) w
  | Unmount, Live => run_M unmount w
  | Advance dt, _ => run_M (turn (λ _, elapse dt ;; timers)) w
  | Settle id s io, _ =>
      match tasks w !! id with
      | Some p =>
          match async_resume id p s io with
          | Some code =>
              run_M (turn (λ _, p' ← code; modify (with_task id p'))) w
          | None => Invalid
          end
      | None => Invalid
      end
  | _, _ => Invalid
  end.

Fixpoint run (es : list event) (w : world) : outcome :=
  match es with
  | [] => Next w
  | e :: es' =>
      match step e w with
      | Next w' => run es' w'
      | o => o
      end
  end.

Definition reachable (key : value) (storage : gmap string string) (t : N)
    (w : world) : Prop :=
  ∃ es, run es (boot key storage t) = Next w.

(** The events of one invocation of the asynchronous function, taken on
    its own: the debounce timer fires after [dt] milliseconds, then each
    awaited promise settles after some more time. *)
Definition fetch_cycle (id : nat) (dt : N)
    (ss : list (N * settlement * sync_io)) : list event :=
  Advance dt :: flat_map (λ x, [Advance x.1.1; Settle id x.1.2 x.2]) ss.

(** The world right after the timer has called the function with
    [cityName]: lines 23-28 have run. *)
Definition started (cityName : value) (w : world) : world :=
  with_task (next_task w) (AwaitWeatherResponse cityName)
    (with_requests
       ({| issuer := next_task w; target := Weather;
           url := endpoint_url Weather cityName (API_KEY w) |} :: requests w)
       (with_ui (put_error VNull)
          (with_ui (put_isLoading true)
             (with_next_task (S (next_task w)) w)))).

(** The text that [JSON.parse] is given on line 62. *)
Definition cache_text (storage : gmap string string) : string :=
  match storage !! CACHE_KEY with
  | Some s => s
  | None => "null"
  end.

(** The state after lines 64-68. *)
Definition hydrated (cachedData : value) (s : UIState) : UIState :=
  put_isLoading false
    (put_lastUpdated (get_prop cachedData "lastUpdated")
       (put_forecastData (get_prop cachedData "forecastData")
          (put_weatherData (get_prop cachedData "weatherData")
             (put_city (get_prop cachedData "city") s)))).

(** The storage accepts every write of the cycle. *)
Definition writes_accepted (ss : list (N * settlement * sync_io)) : Prop :=
  Forall (λ x, setItem_throws x.2 = None) ss.

(** A world in which an earlier cycle has left data for Paris and a
    refresh is pending. *)
Definition with_paris_data (w : world) : world :=
  with_ui (λ s, put_lastUpdated (VStr "2024-01-01T00:00:00.000Z")
                  (put_forecastData (VObj [("list", VArr [])])
                     (put_weatherData (VObj [("temp", VNum "21.5")])
                        (put_city (VStr "Paris") (put_isLoading false s)))))
    w.

(** What calls the debounced function while the component is mounted: a
    click on Refresh, or a selection that changes [city] (the effect of
    lines 73-75 then runs). *)
Inductive trigger : Type :=
| ByRefresh
| BySelect (c : string).

Definition trigger_event (t : trigger) : event :=
  match t with
  | ByRefresh => Refresh
  | BySelect c => SelectCity c
  end.

(** The city name the trigger passes on, in a render whose [city] is
    [current]. *)
Definition trigger_city (current : value) (t : trigger) : value :=
  match t with
  | ByRefresh => current
  | BySelect c => VStr c
  end.

(** A burst: each trigger comes some milliseconds after the one before. *)
Definition burst (ts : list (N * trigger)) : list event :=
  flat_map (λ x, [Advance x.1; trigger_event x.2]) ts.

(** Every selection of the burst picks a city other than the current one
    (a selection of the current city changes no state and runs no
    effect). *)
Fixpoint all_fire (current : value) (ts : list (N * trigger)) : Prop :=
  match ts with
  | [] => True
  | (_, t) :: ts' =>
      match t with
      | ByRefresh => True
      | BySelect c => Object_is (VStr c) current = false
      end ∧ all_fire (trigger_city current t) ts'
  end.

(** The city name of the last trigger. *)
Definition last_city (current : value) (ts : list (N * trigger)) : value :=
  fold_left (λ c x, trigger_city c x.2) ts current.

(** No debounce timer fires within the next [dt] milliseconds. *)
Definition quiet_for (dt : N) (w : world) : Prop :=
  match pending w with
  | Some (_, deadline) => (now w + dt < deadline)%N
  | None => True
  end.

(** The invocations are numbered below [next_task], and [unit] holds one
    of the two units. *)
Definition well_formed (w : world) : Prop :=
  (∀ id, is_Some (tasks w !! id) → id < next_task w) ∧
  (unit (ui w) = "celsius" ∨ unit (ui w) = "fahrenheit").

(** ** What is on the screen (lines 85-131)

    The title, the search box and the two buttons are always there; the
    five parts below depend on the state. *)

(** A child [{v && element}]: the element when [v] is truthy.  Otherwise
    the child is [v] itself, and React shows a number as text (a falsy
    number is zero, shown as 0) and nothing for [null], [undefined],
    [false] and the empty string. *)
Inductive child (A : Type) : Type :=
| Nothing
| Text (s : string)
| Element (a : A).
Arguments Nothing {A}.
Arguments Text {A} s.
Arguments Element {A} a.

Definition and_child {A : Type} (v : value) (element : A) : child A :=
  if truthy v then Element element
  else match v with
       | VNum _ => Text "0"
       | _ => Nothing
       end.

(** The props of [WeatherDisplay] and [ForecastDisplay]. *)
Record display_props : Type := { data : value; unit_shown : string }.

Record screen : Type := {
  loading_line : bool;                  (* line 104 *)
  error_banner : child value;           (* lines 105-110, around [{error}] *)
  weather_panel : child display_props;  (* lines 111-115 *)
  last_updated_line : child value;      (* lines 116-120, the date shown *)
  forecast_panel : child display_props  (* lines 122-129 *)
}.

(** The value that [App] returns for a state, as far as it depends on the
    state.  The text of the date ([toLocaleString], which depends on the
    locale) is left as the value it is computed from. *)
Definition App_render (s : UIState) : screen :=
  {| loading_line := isLoading s;
     error_banner := and_child (error s) (error s);
     weather_panel :=
       and_child (weatherData s)
         {| data := weatherData s; unit_shown := unit s |};
     last_updated_line := and_child (lastUpdated s) (lastUpdated s);
     forecast_panel :=
       and_child (forecastData s)
         {| data := forecastData s; unit_shown := unit s |} |}.

(** ** Requests and cache records *)

(** The request that invocation [id] sends to an endpoint for a city. *)
Definition request_of (id : nat) (ep : endpoint) (cityName key : value)
  : request :=
  {| issuer := id; target := ep; url := endpoint_url ep cityName key |}.

(** The requests of one invocation, newest first. *)
Definition sent_by (id : nat) (w : world) : list request :=
  filter (λ rq, issuer rq = id) (requests w).

(** The object of lines 45-50. *)
Definition cache_record (cityName weatherData forecastData : value)
    (stamp : string) : value :=
  VObj [("city", cityName); ("weatherData", weatherData);
        ("forecastData", forecastData); ("lastUpdated", VStr stamp)].

(** What the settlement of an awaited promise does to the invocation
    [id] that awaited it in phase [p]: the phase it leaves it in, the
    requests and the storage afterwards. *)
Definition moves (id : nat) (key : value) (p p' : phase)
    (rq rq' : list request) (st st' : gmap string string) : Prop :=
  match p, p' with
  | AwaitWeatherResponse c, AwaitForecastResponse c' _ =>
      c' = c ∧ rq' = request_of id Forecast c key :: rq ∧ st' = st
  | AwaitForecastResponse c _, AwaitWeatherJson c' _
  | AwaitWeatherJson c _, AwaitForecastJson c' _ =>
      c' = c ∧ rq' = rq ∧ st' = st
  | AwaitForecastJson c wd, Finished None =>
      rq' = rq ∧
      ∃ fd stamp,
        st' = <[CACHE_KEY :=
                  ToString (JSON.stringify (cache_record c wd fd stamp))]> st
  | AwaitWeatherResponse _, Finished (Some _)
  | AwaitForecastResponse _ _, Finished (Some _)
  | AwaitWeatherJson _ _, Finished (Some _)
  | AwaitForecastJson _ _, Finished (Some _) => rq' = rq ∧ st' = st
  | _, _ => False
  end.

(** The requests that an invocation in phase [p] has sent. *)
Definition sent_in_phase (id : nat) (key : value) (p : phase)
    (l : list request) : Prop :=
  match p with
  | AwaitWeatherResponse c => l = [request_of id Weather c key]
  | AwaitForecastResponse c _ | AwaitWeatherJson c _
  | AwaitForecastJson c _ =>
      l = [request_of id Forecast c key; request_of id Weather c key]
  | Finished _ =>
      ∃ c, l = [request_of id Weather c key] ∨
           l = [request_of id Forecast c key; request_of id Weather c key]
  end.

(** The invocations are numbered below [next_task], the key is [key], and
    every invocation has sent the requests of its phase. *)
Definition orderly (key : value) (w : world) : Prop :=
  API_KEY w = key ∧
  (∀ id, is_Some (tasks w !! id) → id < next_task w) ∧
  ∀ id, match tasks w !! id with
        | Some p => sent_in_phase id key p (sent_by id w)
        | None => sent_by id w = []
        end.

(** ** Values that JSON carries *)

(** The characters a number literal is made of. *)
Definition number_char (c : ascii) : bool :=
  (JSON.is_digit c || Ascii.eqb c "." || Ascii.eqb c "e" || Ascii.eqb c "E"
   || Ascii.eqb c "+" || Ascii.eqb c "-")%bool.

(** What may follow a value in a text: the end, or a character that does
    not continue a number (a comma, a closing bracket or brace, white
    space). *)
Definition delimited (rest : list ascii) : Prop :=
  match rest with
  | [] => True
  | c :: _ => number_char c = false
  end.

(** The values that a JSON text denotes: no [undefined], number literals
    that the grammar of [JSON.parse_number] reads back as they stand, and
    no key twice in an object. *)
Fixpoint json_data (v : value) : Prop :=
  match v with
  | VUndefined => False
  | VNull | VBool _ | VStr _ => True
  | VNum lit =>
      ∀ rest, delimited rest →
        JSON.parse_number (list_ascii_of_string lit ++ rest)
        = Some (list_ascii_of_string lit, rest)
  | VArr items =>
      (fix all (l : list value) : Prop :=
         match l with
         | [] => True
         | x :: l' => json_data x ∧ all l'
         end) items
  | VObj members =>
      NoDup (map fst members) ∧
      (fix all (l : list (string * value)) : Prop :=
         match l with
         | [] => True
         | (_, x) :: l' => json_data x ∧ all l'
         end) members
  end.

(** The item that [JSON.parse_string_items] reads for a character that
    [JSON.quote_chars] wrote: the character itself, or the [\u00XX] escape
    of a control character that has no short escape. *)
Definition item_of (c : ascii) : JSON.string_item :=
  if ((N_of_ascii c <? 32)%N
      && negb (Ascii.eqb c "008" || Ascii.eqb c "012" || Ascii.eqb c "010"
               || Ascii.eqb c "013" || Ascii.eqb c "009"))%bool
  then JSON.Escaped (N_of_ascii c) else JSON.Raw c.

(** No digit comes next. *)
Definition no_digit_ahead (x : list ascii) : Prop :=
  match x with
  | [] => True
  | c :: _ => JSON.is_digit c = false
  end.

(** A text reads back as [v], whatever delimited text follows it, with any
    fuel from twice its length on. *)
Definition reads_back (v : value) (t : list ascii) : Prop :=
  ∀ rest m, delimited rest → 2 * length t ≤ m →
    JSON.parse_value m (t ++ rest) = Some (v, rest).

(** The first character of a value: not white space and not a closing
    bracket. *)
Definition opens (t : list ascii) : Prop :=
  ∃ c tl, t = c :: tl ∧ JSON.is_ws c = false
          ∧ Ascii.eqb c "]" = false ∧ Ascii.eqb c "}" = false.

(** [JSON.serialize] writes [v] as the text [t], which opens a value and
    reads back. *)
Definition written (v : value) (t : string) : Prop :=
  JSON.serialize v = Some t ∧ opens (list_ascii_of_string t)
  ∧ reads_back v (list_ascii_of_string t).

(** What [JSON.serialize] writes for one member of an object. *)
Definition member_text (kv : string * value) : string :=
  JSON.quote kv.1 +:+ ":" +:+ default "null" (JSON.serialize kv.2).

(** ** Events between the steps of an invocation *)

(** An event that is not a settlement of a promise of invocation [id]: an
    action of the user, time passing (which may start other invocations),
    or the settlement of a promise of another invocation. *)
Definition foreign (id : nat) (e : event) : Prop :=
  match e with
  | Settle i _ _ => i ≠ id
  | _ => True
  end.

(** An event that settles no promise at all. *)
Definition settles_nothing (e : event) : Prop :=
  match e with
  | Settle _ _ _ => False
  | _ => True
  end.

(** ** Number literals and the doubles they stand for

    The model keeps a number as the literal it was written with, where the
    program holds the double nearest to it (ties to even).  The two agree
    on what the component does with a number -- test it for truthiness,
    write it with [JSON.stringify] and read it back -- except for the
    literals set apart here. *)

(** The number that a sequence of digits writes. *)
Definition digits_value (ds : list ascii) : Z :=
  fold_left (λ acc c, 10 * acc + (Z.of_N (N_of_ascii c) - 48))%Z ds 0%Z.

(** A literal of the JSON grammar taken apart: whether it starts with a
    minus sign, and integers [m] and [e] such that its absolute value is
    [m * 10^e]. *)
Definition literal_parts (cs : list ascii) : bool * Z * Z :=
  let '(negative, r0) :=
    match JSON.strip ["-"%char] cs with
    | Some r => (true, r)
    | None => (false, cs)
    end in
  let '(int_digits, r1) := JSON.span_digits r0 in
  let '(frac_digits, r2) :=
    match JSON.strip ["."%char] r1 with
    | Some r => JSON.span_digits r
    | None => ([], r1)
    end in
  let exponent :=
    match JSON.strip ["e"%char] r2, JSON.strip ["E"%char] r2 with
    | Some r3, _ | None, Some r3 =>
        match JSON.strip ["-"%char] r3, JSON.strip ["+"%char] r3 with
        | Some r4, _ => (- digits_value (JSON.span_digits r4).1)%Z
        | None, Some r4 => digits_value (JSON.span_digits r4).1
        | None, None => digits_value (JSON.span_digits r3).1
        end
    | None, None => 0%Z
    end in
  (negative, digits_value (int_digits ++ frac_digits),
   (exponent - Z.of_nat (length frac_digits))%Z).

(** The literal stands for a double that behaves as the literal reads: it
    is finite (below [2^1024 - 2^970], from where on the nearest double is
    [Infinity], which [JSON.stringify] writes as [null]); it is zero only
    if its digits are zero (a magnitude of at most [2^-1075] rounds to
    zero, which is falsy); and it is not negative zero (which
    [JSON.stringify] writes as 0). *)
Definition ordinary_number (lit : string) : bool :=
  let '(negative, m, e) := literal_parts (list_ascii_of_string lit) in
  (if m =? 0 then negb negative
   else if 0 <=? e then m * 10 ^ e <? 2 ^ 1024 - 2 ^ 970
   else (m <? (2 ^ 1024 - 2 ^ 970) * 10 ^ (- e))
        && (10 ^ (- e) <? m * 2 ^ 1075))%Z.

(** Every number in the value is ordinary. *)
Fixpoint ordinary (v : value) : bool :=
  match v with
  | VNum lit => ordinary_number lit
  | VArr items => forallb ordinary items
  | VObj members =>
      (fix all (l : list (string * value)) : bool :=
         match l with
         | [] => true
         | (_, x) :: l' => ordinary x && all l'
         end) members
  | _ => true
  end.

(** * Properties *)

(** ** The JSON parser *)

Section json_fuel.
Import JSON.

Lemma skip_ws_length cs : length (skip_ws cs) ≤ length cs.
Proof.
  induction cs as [| c cs IH]; simpl; [lia |].
  destruct (is_ws c); simpl; lia.
Qed.

Lemma next_length cs c r : next cs = Some (c, r) → length r < length cs.
Proof.
  unfold next. intros H. pose proof (skip_ws_length cs) as Hle.
  destruct (skip_ws cs) as [| c' r']; simplify_eq. simpl in Hle. lia.
Qed.

Lemma strip_length lit cs r :
  strip lit cs = Some r → length cs = length lit + length r.
Proof.
  revert cs. induction lit as [| l lit IH]; intros [| c cs] H; simpl in *;
    simplify_eq; try reflexivity.
  destruct (Ascii.eqb l c); [| discriminate].
  by rewrite (IH _ H).
Qed.

Lemma span_digits_length cs ds r :
  span_digits cs = (ds, r) → length cs = length ds + length r.
Proof.
  revert ds r. induction cs as [| c cs IH]; intros ds r H; simpl in *.
  - by simplify_eq.
  - destruct (is_digit c); [| by simplify_eq].
    destruct (span_digits cs) as [ds' r'] eqn:Hs. simplify_eq.
    simpl. by rewrite (IH _ _ eq_refl).
Qed.

Lemma parse_number_length cs lit r :
  parse_number cs = Some (lit, r) → length r < length cs.
Proof.
  unfold parse_number. intros H.
  repeat match type of H with
         | context [strip ?l ?x] =>
             let E := fresh "E" in
             destruct (strip l x) eqn:E;
             [apply strip_length in E; simpl in E |]
         | context [span_digits ?x] =>
             let E := fresh "E" in
             let ds := fresh "ds" in
             destruct (span_digits x) as [ds ?] eqn:E;
             apply span_digits_length in E; destruct ds; simpl in E
         end; simplify_eq; lia.
Qed.

Lemma parse_string_items_length cs :
  ∀ its r, parse_string_items cs = Some (its, r) → length r < length cs.
Proof.
  induction cs as [cs IH] using (induction_ltof1 _ (@length ascii)).
  unfold ltof in IH. intros its r H.
  destruct cs as [| c cs]; simpl in H; [discriminate |].
  destruct (Ascii.eqb c "034"); [simplify_eq; simpl; lia |].
  destruct (Ascii.eqb c "\").
  - destruct cs as [| e r1]; [discriminate |].
    destruct (simple_escape e).
    + unfold cons_item in H.
      destruct (parse_string_items r1) as [[its' rest] |] eqn:Hrec;
        simplify_eq.
      apply IH in Hrec; simpl in *; lia.
    + destruct (Ascii.eqb e "u"); [| discriminate].
      destruct r1 as [| h1 [| h2 [| h3 [| h4 r']]]]; try discriminate.
      destruct (hex_val h1), (hex_val h2), (hex_val h3), (hex_val h4);
        try discriminate.
      unfold cons_item in H.
      destruct (parse_string_items r') as [[its' rest] |] eqn:Hrec;
        simplify_eq.
      apply IH in Hrec; simpl in *; lia.
  - destruct (nat_of_ascii c <? 32)%nat; [discriminate |].
    unfold cons_item in H.
    destruct (parse_string_items cs) as [[its' rest] |] eqn:Hrec;
      simplify_eq.
    apply IH in Hrec; simpl in *; lia.
Qed.

Lemma parse_string_length cs s r :
  parse_string cs = Some (s, r) → length r < length cs.
Proof.
  unfold parse_string. intros H.
  destruct (parse_string_items cs) as [[its rest] |] eqn:Hitems;
    simplify_eq.
  by apply parse_string_items_length in Hitems.
Qed.

(** Whatever fuel a parse succeeded with, twice the number of characters
    it consumed is enough. *)
Lemma fuel_enough (n : nat) :
  (∀ cs v r, parse_value n cs = Some (v, r) →
     length r < length cs ∧
     ∀ m, 2 * (length cs - length r) ≤ m → parse_value m cs = Some (v, r)) ∧
  (∀ cs vs r, parse_elements n cs = Some (vs, r) →
     length r < length cs ∧
     ∀ m, 2 * (length cs - length r) ≤ m →
          parse_elements m cs = Some (vs, r)) ∧
  (∀ acc cs ms r, parse_members n acc cs = Some (ms, r) →
     length r < length cs ∧
     ∀ m, 2 * (length cs - length r) ≤ m →
          parse_members m acc cs = Some (ms, r)).
Proof.
  induction n as [| n (IHv & IHe & IHm)]; [by repeat split |].
  split; [| split]; intros *; intros H;
    cbn [parse_value parse_elements parse_members] in H;
    repeat first
      [ discriminate H
      | match type of H with
        | context [next ?x] =>
            let E := fresh "E" in
            destruct (next x) as [[? ?] |] eqn:E;
            [pose proof (next_length _ _ _ E) |]
        | context [Ascii.eqb ?a ?b] =>
            let E := fresh "E" in destruct (Ascii.eqb a b) eqn:E
        | context [strip ?l ?x] =>
            let E := fresh "E" in
            destruct (strip l x) eqn:E;
            [pose proof (strip_length _ _ _ E) |]; cbn [fmap option_fmap option_map] in H
        | context [parse_string ?x] =>
            let E := fresh "E" in
            destruct (parse_string x) as [[? ?] |] eqn:E;
            [pose proof (parse_string_length _ _ _ E) |]
        | context [parse_number ?x] =>
            let E := fresh "E" in
            destruct (parse_number x) as [[? ?] |] eqn:E;
            [pose proof (parse_number_length _ _ _ E) |]
        | context [parse_value n ?x] =>
            let E := fresh "E" in
            destruct (parse_value n x) as [[? ?] |] eqn:E;
            [destruct (IHv _ _ _ E) |]
        | context [parse_elements n ?x] =>
            let E := fresh "E" in
            destruct (parse_elements n x) as [[? ?] |] eqn:E;
            [destruct (IHe _ _ _ E) |]
        | context [parse_members n ?a ?x] =>
            let E := fresh "E" in
            destruct (parse_members n a x) as [[? ?] |] eqn:E;
            [destruct (IHm _ _ _ _ E) |]
        end ].
  all: try (injection H as <- <-).
  all: cbn [length] in *.
  all: (split; [lia |]).
  all: try (intros [| m] Hm; [lia |];
    cbn [parse_value parse_elements parse_members];
    repeat match goal with
      | E : next _ = _ |- _ => rewrite E
      | E : Ascii.eqb _ _ = _ |- _ => rewrite E
      | E : strip _ _ = _ |- _ => rewrite E
      | E : parse_string _ = _ |- _ => rewrite E
      | E : parse_number _ = _ |- _ => rewrite E
      | E : ∀ m, _ → parse_value m _ = _ |- _ => rewrite E by lia
      | E : ∀ m, _ → parse_elements m _ = _ |- _ => rewrite E by lia
      | E : ∀ m, _ → parse_members m _ _ = _ |- _ => rewrite E by lia
      end; reflexivity).
Qed.

(** The answer of [parse] does not depend on its choice of fuel: a
    complete parse found with any fuel is the one [parse] returns. *)
Lemma parse_needs_no_more_fuel (text : string) (v : value) :
  (∃ n r, parse_value n (list_ascii_of_string text) = Some (v, r)
          ∧ skip_ws r = [])
  ↔ parse text = Some v.
Proof.
  unfold parse. split.
  - intros (n & r & Hn & Hr).
    destruct (fuel_enough n) as [Hv _].
    destruct (Hv _ _ _ Hn) as [_ Hm].
    rewrite Hm by lia. by rewrite Hr.
  - intros H.
    destruct (parse_value _ _) as [[v' r] |] eqn:Hp; [| discriminate].
    exists (2 * length (list_ascii_of_string text) + 2), r.
    destruct (skip_ws r) eqn:Hr; [| discriminate].
    by simplify_eq.
Qed.

End json_fuel.

(** ** Evaluation of the model *)

Lemma Object_is_refl (v : value) : Object_is v v = true.
Proof.
  induction v as [| | b | lit | s | items IH | members IH]
    using value_nested_ind; simpl; try reflexivity.
  - by destruct b.
  - apply String.eqb_refl.
  - apply String.eqb_refl.
  - induction IH as [| x l Hx _ IHl]; [reflexivity |].
    by rewrite Hx, IHl.
  - induction IH as [| [k x] l Hx _ IHl]; [reflexivity |].
    simpl in Hx. by rewrite String.eqb_refl, Hx, IHl.
Qed.

Lemma Object_is_eq (a b : value) : Object_is a b = true → a = b.
Proof.
  revert b.
  induction a as [| | x | x | x | items IH | members IH]
    using value_nested_ind; intros [| | y | y | y | ys | ys]; simpl;
    try discriminate; try reflexivity.
  - intros H. by rewrite (Bool.eqb_prop _ _ H).
  - intros H. by apply String.eqb_eq in H as ->.
  - intros H. by apply String.eqb_eq in H as ->.
  - intros H. f_equal. revert ys H.
    induction IH as [| x l Hx _ IHl]; intros [| y ys] H;
      try discriminate; [reflexivity |].
    apply andb_true_iff in H as [H1 H2].
    by rewrite (Hx _ H1), (IHl _ H2).
  - intros H. f_equal. revert ys H.
    induction IH as [| [k x] l Hx _ IHl]; intros [| [k' y] ys] H;
      try discriminate; [reflexivity |].
    apply andb_true_iff in H as [H1 H2].
    apply andb_true_iff in H1 as [H0 H1].
    apply String.eqb_eq in H0 as ->. simpl in Hx.
    by rewrite (Hx _ H1), (IHl _ H2).
Qed.

(** Unfold the statements of the model down to functions on worlds. *)
Ltac unfold_M :=
  unfold mbind, M_bind, mret, M_ret, modify, read, throw in *.

Create HintDb component discriminated.
#[local] Hint Unfold step run_M turn rerender mount unmount startup_effect
  city_effect handleRefresh toggleUnit timers invoke async_enter
  async_resume try_resume try_enter try_catch_finally catch_block
  finally_block fetchWeatherData fetch elapse new_Date_toISOString
  JSON_parse json localStorage.getItem localStorage.setItem setCity
  setWeatherData setForecastData setIsLoading setError setUnit
  setLastUpdated : component.

Ltac unfold_component := repeat autounfold with component in *.

#[local] Arguments run : simpl never.
#[local] Arguments ToString : simpl never.
#[local] Arguments JSON.stringify : simpl never.
#[local] Arguments JSON.parse : simpl never.
#[local] Arguments Date.toISOString : simpl never.
#[local] Arguments endpoint_url : simpl never.

Ltac exec := unfold_component; unfold_M; simpl in *.

(** *** The debounce timer *)

Lemma invoke_started (cityName : value) (w : world) :
  invoke cityName w = (Normal (), started cityName w).
Proof. reflexivity. Qed.

Lemma step_advance (dt : N) (w : world) :
  step (Advance dt) w =
    Next (match pending w with
          | Some (cityName, deadline) =>
              if (deadline <=? now w + dt)%N
              then started cityName
                     (with_pending None (with_now (now w + dt)%N w))
              else with_now (now w + dt)%N w
          | None => with_now (now w + dt)%N w
          end).
Proof.
  assert (Hturn :
    run_M (turn (λ _, elapse dt ;; timers)) w =
    Next (match pending w with
          | Some (cityName, deadline) =>
              if (deadline <=? now w + dt)%N
              then started cityName
                     (with_pending None (with_now (now w + dt)%N w))
              else with_now (now w + dt)%N w
          | None => with_now (now w + dt)%N w
          end)).
  { exec. destruct (pending w) as [[c d] |]; simpl.
    - destruct (d <=? now w + dt)%N; simpl;
        rewrite Object_is_refl; by destruct (stage w).
    - rewrite Object_is_refl; by destruct (stage w). }
  unfold step. by destruct (stage w).
Qed.

Lemma step_advance_idle (dt : N) (w : world) :
  pending w = None → step (Advance dt) w = Next (with_now (now w + dt)%N w).
Proof. intros H. by rewrite step_advance, H. Qed.

Lemma step_advance_quiet (dt : N) (w : world) cityName deadline :
  pending w = Some (cityName, deadline) → (now w + dt < deadline)%N →
  step (Advance dt) w = Next (with_now (now w + dt)%N w).
Proof.
  intros H Hlt. rewrite step_advance, H.
  by apply N.leb_gt in Hlt as ->.
Qed.

Lemma step_advance_fire (dt : N) (w : world) cityName deadline :
  pending w = Some (cityName, deadline) → (deadline ≤ now w + dt)%N →
  step (Advance dt) w =
    Next (started cityName (with_pending None (with_now (now w + dt)%N w))).
Proof.
  intros H Hle. rewrite step_advance, H.
  by apply N.leb_le in Hle as ->.
Qed.

(** *** The asynchronous function *)

(** The code after an [await] never touches [city], so the render that
    follows it runs no effect. *)
Lemma step_settle (w : world) id p s io :
  tasks w !! id = Some p →
  step (Settle id s io) w =
    match async_resume id p s io with
    | Some code =>
        match code w with
        | (Normal p', w') => Next (with_task id p' w')
        | (Throw e, _) => Uncaught e
        end
    | None => Invalid
    end.
Proof.
  intros Hp.
  assert (Hstep : step (Settle id s io) w =
    match async_resume id p s io with
    | Some code => run_M (turn (λ _, p' ← code; modify (with_task id p'))) w
    | None => Invalid
    end).
  { unfold step. rewrite Hp. by destruct (stage w). }
  rewrite Hstep. clear Hstep Hp.
  destruct p, s; try reflexivity; exec.
  all: repeat (case_match; simplify_eq; simpl in *; try reflexivity).
  all: rewrite ?Object_is_refl in *; simplify_eq; try reflexivity.
Qed.

(** *** The handlers and the hooks *)

Lemma step_toggle (w : world) :
  stage w = Live →
  step ToggleUnit w =
    Next (with_ui (λ s, put_unit (if String.eqb (unit s) "celsius"
                                  then "fahrenheit" else "celsius") s) w).
Proof.
  intros Hs. unfold step. rewrite Hs. exec.
  by rewrite Hs, Object_is_refl.
Qed.

Lemma step_refresh (w : world) :
  stage w = Live →
  step Refresh w = Next (with_pending (Some (city (ui w), now w + wait)%N) w).
Proof.
  intros Hs. unfold step. rewrite Hs. exec.
  by rewrite Hs, Object_is_refl.
Qed.

Lemma step_select (w : world) (c : string) :
  stage w = Live → Object_is (VStr c) (city (ui w)) = false →
  step (SelectCity c) w =
    Next (with_pending (Some (VStr c, now w + wait)%N)
            (with_ui (put_city (VStr c)) w)).
Proof.
  intros Hs Hc. unfold step. rewrite Hs. exec.
  by rewrite Hs, Hc.
Qed.

Lemma step_select_same (w : world) (c : string) :
  stage w = Live → Object_is (VStr c) (city (ui w)) = true →
  step (SelectCity c) w = Next (with_ui (put_city (VStr c)) w).
Proof.
  intros Hs Hc. unfold step. rewrite Hs. exec.
  by rewrite Hs, Hc.
Qed.

Lemma step_unmount (w : world) :
  stage w = Live → step Unmount w = Next (with_stage TornDown w).
Proof. intros Hs. unfold step. by rewrite Hs. Qed.

Lemma step_mount (w : world) :
  stage w = Fresh →
  step Mount w =
    match JSON.parse (cache_text (store w)) with
    | None => Uncaught SyntaxError
    | Some cachedData =>
        if truthy cachedData
        then Next (with_pending
                     (Some (get_prop cachedData "city", now w + wait)%N)
                     (with_ui (hydrated cachedData) (with_stage Live w)))
        else Next (with_pending (Some (city (ui w), now w + wait)%N)
                     (with_stage Live w))
    end.
Proof.
  intros Hs. unfold step. rewrite Hs. exec. unfold cache_text.
  assert (Htext :
    ToString match store w !! CACHE_KEY with
             | Some s => VStr s
             | None => VNull
             end
    = match store w !! CACHE_KEY with Some s => s | None => "null" end)
    by by destruct (store w !! CACHE_KEY).
  rewrite Htext. clear Htext.
  destruct (JSON.parse _) as [cachedData |]; simpl; [| reflexivity].
  destruct (truthy cachedData); simpl.
  - destruct (Object_is (get_prop cachedData "city") (city (ui w))) eqn:Hc;
      simpl; [| reflexivity].
    rewrite <- (Object_is_eq _ _ Hc). reflexivity.
  - rewrite Object_is_refl. reflexivity.
Qed.

(** ** The unit toggle *)

(** C8: from any state of the mounted component whose [unit] is one of the
    two units, [toggleUnit()] changes the [unit] cell and nothing else (no
    other state cell, no pending debounced call, no invocation, no request,
    nothing in the storage), and a second [toggleUnit()] gives the original
    world back, [unit] included. *)
Theorem toggleUnit_twice_restores_and_is_local (w : world) :
  stage w = Live →
  unit (ui w) = "celsius" ∨ unit (ui w) = "fahrenheit" →
  ∃ w1,
    step ToggleUnit w = Next w1 ∧
    step ToggleUnit w1 = Next w ∧
    unit (ui w1) ≠ unit (ui w) ∧
    w1 = with_ui (put_unit (unit (ui w1))) w ∧
    pending w1 = pending w ∧ tasks w1 = tasks w ∧
    requests w1 = requests w ∧ store w1 = store w.
Proof.
  intros Hs Hu. eexists. split; [by apply step_toggle |].
  rewrite step_toggle by done.
  destruct w as [[c wd fd l e u lu] st pe ta nt n rq sg k]; simpl in *.
  destruct Hu as [-> | ->]; simpl; repeat split; done.
Qed.

Lemma toggleUnit_twice_restores_and_is_local_witness :
  let w := with_stage Live (boot (VStr "k") ∅ 0) in
  ∃ w1,
    step ToggleUnit w = Next w1 ∧
    step ToggleUnit w1 = Next w ∧
    unit (ui w1) ≠ unit (ui w) ∧
    w1 = with_ui (put_unit (unit (ui w1))) w ∧
    pending w1 = pending w ∧ tasks w1 = tasks w ∧
    requests w1 = requests w ∧ store w1 = store w.
Proof.
  intros w.
  apply (toggleUnit_twice_restores_and_is_local w);
    [reflexivity | left; reflexivity].
Defined.

(** ** Startup *)

(** C4, as stated, fails: with the text of an unfinished object in the
    cache slot, which is not well-formed JSON, mounting the component does
    not go on as if the slot were empty; the [SyntaxError] of [JSON.parse]
    leaves the startup effect. *)
Lemma malformed_cache_raises_at_startup :
  JSON.parse "{" = None ∧
  step Mount (boot (VStr "k") {[ CACHE_KEY := "{" ]} 0) = Uncaught SyntaxError.
Proof. split; vm_compute; reflexivity. Qed.

(** C4, amended: when the cache slot is absent, the startup read yields
    nothing and raises nothing, and startup goes on from the initial state
    with a fetch of the default city pending; when the slot holds text that
    is not well-formed JSON, the read raises a [SyntaxError] that the
    startup effect does not catch, and the effect stops there: in the world
    in which the exception leaves the component, every state cell still
    has its initial value (nothing is adopted), no debounced call is
    pending, no invocation has started and no request has been sent (no
    fetch is triggered). *)
Theorem startup_cache_read_absent_or_malformed
    (key : value) (storage : gmap string string) (t : N) :
  (storage !! CACHE_KEY = None
   ∨ ∃ text, storage !! CACHE_KEY = Some text ∧ JSON.parse text = None) →
  match storage !! CACHE_KEY with
  | None =>
      step Mount (boot key storage t) =
        Next (with_pending (Some (VStr DEFAULT_CITY, t + wait)%N)
                (with_stage Live (boot key storage t)))
  | Some _ =>
      step Mount (boot key storage t) = Uncaught SyntaxError ∧
      ∃ thrown,
        mount (boot key storage t) = (Throw SyntaxError, thrown) ∧
        thrown = with_stage Live (boot key storage t) ∧
        ui thrown = initial_state ∧ pending thrown = None ∧
        tasks thrown = ∅ ∧ requests thrown = [] ∧ store thrown = storage
  end.
Proof.
  intros H.
  destruct H as [Hnone | (text & Hsome & Hbad)].
  - rewrite Hnone, step_mount by reflexivity.
    unfold cache_text. simpl. by rewrite Hnone.
  - rewrite Hsome. split.
    + rewrite step_mount by reflexivity.
      unfold cache_text. simpl. by rewrite Hsome, Hbad.
    + exists (with_stage Live (boot key storage t)).
      split; [| done]. exec. rewrite Hsome. simpl.
      change (ToString (VStr text)) with text. by rewrite Hbad.
Qed.

Lemma startup_cache_read_absent_or_malformed_witness :
  (step Mount (boot (VStr "k") {[ CACHE_KEY := "not json" ]} 5) =
     Uncaught SyntaxError
   ∧ mount (boot (VStr "k") {[ CACHE_KEY := "not json" ]} 5) =
       (Throw SyntaxError,
        with_stage Live (boot (VStr "k") {[ CACHE_KEY := "not json" ]} 5)))
  ∧ step Mount (boot (VStr "k") ∅ 5) =
      Next (with_pending (Some (VStr DEFAULT_CITY, 5 + wait)%N)
              (with_stage Live (boot (VStr "k") ∅ 5))).
Proof.
  split.
  - pose proof (startup_cache_read_absent_or_malformed
                  (VStr "k") {[ CACHE_KEY := "not json" ]} 5) as H.
    change (({[ CACHE_KEY := "not json" ]} : gmap string string)
              !! CACHE_KEY) with (Some "not json") in H.
    destruct H as (Hstep & thrown & Hmount & -> & _).
    + right. exists "not json". split; vm_compute; reflexivity.
    + split; assumption.
  - pose proof (startup_cache_read_absent_or_malformed (VStr "k") ∅ 5) as H.
    change ((∅ : gmap string string) !! CACHE_KEY) with (@None string) in H.
    apply H. left. reflexivity.
Defined.



(** ** Teardown *)

(** C6, as stated, fails: mount the component on an empty storage, remove
    it at once, and let the quiet window elapse.  The pending call is still
    in the debounce slot after the teardown, and it fires: the setters are
    called ([isLoading] was [true] already, [error] is set to [null]) and the
    request for the default city goes out. *)
Lemma pending_call_fires_after_teardown :
  ∃ w1 w2 w3,
    step Mount (boot (VStr "k") ∅ 0) = Next w1 ∧
    step Unmount w1 = Next w2 ∧
    stage w2 = TornDown ∧
    pending w2 = Some (VStr DEFAULT_CITY, 300%N) ∧
    step (Advance 300) w2 = Next w3 ∧
    stage w3 = TornDown ∧
    tasks w3 = {[ 0 := AwaitWeatherResponse (VStr DEFAULT_CITY) ]} ∧
    requests w3 =
      [ {| issuer := 0; target := Weather;
           url := endpoint_url Weather (VStr DEFAULT_CITY) (VStr "k") |} ].
Proof.
  do 3 eexists.
  split; [vm_compute; reflexivity |].
  split; [vm_compute; reflexivity |].
  repeat split; vm_compute; reflexivity.
Qed.

(** C6, amended: tearing the component down does not discard a pending
    debounced call.  The call stays in the debounce slot with its arguments
    and its deadline, and once its window has elapsed it fires exactly as
    it would in the mounted component: [isLoading] is set to [true], [error]
    to [null], and the current-conditions request for its city is sent. *)
Theorem teardown_keeps_pending_call
    (w : world) (cityName : value) (deadline dt : N) :
  stage w = Live →
  pending w = Some (cityName, deadline) →
  (deadline ≤ now w + dt)%N →
  ∃ w1 w2 w2',
    step Unmount w = Next w1 ∧
    pending w1 = Some (cityName, deadline) ∧
    step (Advance dt) w1 = Next w2 ∧
    step (Advance dt) w = Next w2' ∧
    w2 = with_stage TornDown w2' ∧
    isLoading (ui w2) = true ∧ error (ui w2) = VNull ∧
    tasks w2 !! next_task w = Some (AwaitWeatherResponse cityName) ∧
    requests w2 =
      {| issuer := next_task w; target := Weather;
         url := endpoint_url Weather cityName (API_KEY w) |} :: requests w.
Proof.
  intros Hs Hp Hd.
  exists (with_stage TornDown w). do 2 eexists.
  split; [by apply step_unmount |].
  split; [exact Hp |].
  split; [by apply (step_advance_fire dt _ cityName deadline) |].
  split; [by apply (step_advance_fire dt w cityName deadline) |].
  repeat split. simpl. apply lookup_insert_eq.
Qed.

Lemma teardown_keeps_pending_call_witness :
  let w := with_pending (Some (VStr "Delhi", 300%N))
             (with_stage Live (boot (VStr "k") ∅ 0)) in
  ∃ w1 w2,
    step Unmount w = Next w1 ∧
    pending w1 = Some (VStr "Delhi", 300%N) ∧
    step (Advance 300) w1 = Next w2 ∧
    tasks w2 !! 0 = Some (AwaitWeatherResponse (VStr "Delhi")).
Proof.
  intros w.
  destruct (teardown_keeps_pending_call w (VStr "Delhi") 300 300)
    as (w1 & w2 & w2' & H1 & H2 & H3 & _ & _ & _ & _ & H4 & _);
    [reflexivity | reflexivity | vm_compute; discriminate |].
  exists w1, w2. repeat split; assumption.
Defined.

(** ** One fetch cycle *)

Lemma run_cons (e : event) (es : list event) (w : world) :
  run (e :: es) w = match step e w with Next w' => run es w' | o => o end.
Proof. reflexivity. Qed.

(** Time passes, then the promise that invocation [id] awaits settles. *)
Lemma run_round (w : world) id p d s io rest :
  pending w = None → tasks w !! id = Some p →
  run (Advance d :: Settle id s io :: rest) w =
    match async_resume id p s io with
    | Some code =>
        match code (with_now (now w + d)%N w) with
        | (Normal p', w') => run rest (with_task id p' w')
        | (Throw e, _) => Uncaught e
        end
    | None => Invalid
    end.
Proof.
  intros Hpend Hp. rewrite run_cons, step_advance_idle by done.
  cbv beta iota. rewrite run_cons.
  rewrite (step_settle _ id p) by done.
  destruct (async_resume id p s io) as [code |]; [| done].
  by destruct (code _) as [[p' | e] w'].
Qed.

(** The end of a run of a cycle: the final world is known, and the goal
    describes the phase the invocation is left in. *)
Ltac finish H :=
  injection H as <-;
  eexists; (split; [simpl; apply lookup_insert_eq |]); simpl;
  first
    [ by repeat split
    | do 14 eexists; by repeat split
    | repeat split;
      first
        [ by right
        | left; unfold writes_accepted; rewrite !Forall_cons; simpl;
          intros (_ & _ & _ & Hbad & _); congruence
        | intros; simplify_eq;
          repeat match goal with Hok : ok _ = _ |- _ => rewrite Hok end;
          reflexivity ] ].

(** Follow a run of a cycle settlement by settlement, through every way
    the code can go. *)
Ltac explore H :=
  lazymatch type of H with
  | Invalid = Next _ => discriminate H
  | Uncaught _ = Next _ => discriminate H
  | context [ok ?r] => destruct (ok r) eqn:?; simpl in H; explore H
  | context [JSON.parse ?t] =>
      destruct (JSON.parse t) eqn:?; simpl in H; explore H
  | context [setItem_throws ?io] =>
      destruct (setItem_throws io) eqn:?; simpl in H; explore H
  | run (flat_map _ ?ss) _ = Next _ =>
      let d := fresh "d" in
      let s := fresh "s" in
      let io := fresh "io" in
      destruct ss as [| [[d s] io] ss]; cbn [flat_map app fst snd] in H;
      [ rewrite (eq_refl : run [] _ = Next _) in H; finish H
      | erewrite run_round in H
          by (reflexivity || (simpl; apply lookup_insert_eq));
        destruct s; exec; explore H ]
  end.

(** Every way a cycle can go.  While the invocation is suspended nothing
    of the data or the cache has changed; it ends without an exception only
    after two successful responses and two bodies that parse; and when it
    ends in its [catch] block the cache is as before, [isLoading] is
    [false], [error] is the message of the exception, and the data is as
    before unless the exception came from the cache write itself; the
    exception is [Error("City not found")] after two responses, and the
    rejection itself after a rejected request. *)
Lemma cycle_inversion (w : world) (C : value) (deadline dt : N)
    (ss : list (N * settlement * sync_io)) (w' : world) :
  pending w = Some (C, deadline) → (deadline ≤ now w + dt)%N →
  run (fetch_cycle (next_task w) dt ss) w = Next w' →
  ∃ p, tasks w' !! next_task w = Some p ∧
    match p with
    | Finished None =>
        ∃ d1 r1 io1 d2 r2 io2 d3 t1 io3 d4 t2 io4 wd fd,
          ss = [(d1, FetchFulfilled r1, io1); (d2, FetchFulfilled r2, io2);
                (d3, BodyFulfilled t1, io3); (d4, BodyFulfilled t2, io4)] ∧
          ok r1 = true ∧ ok r2 = true ∧
          JSON.parse t1 = Some wd ∧ JSON.parse t2 = Some fd ∧
          setItem_throws io4 = None
    | Finished (Some err) =>
        store w' = store w ∧
        isLoading (ui w') = false ∧ error (ui w') = VStr (message err) ∧
        (¬ writes_accepted ss ∨
         (weatherData (ui w') = weatherData (ui w) ∧
          forecastData (ui w') = forecastData (ui w) ∧
          lastUpdated (ui w') = lastUpdated (ui w))) ∧
        (∀ d1 r1 io1 d2 r2 io2,
           ss = [(d1, FetchFulfilled r1, io1);
                 (d2, FetchFulfilled r2, io2)] →
           ok r1 && ok r2 = false ∧ err = Error "City not found") ∧
        (∀ d1 e io1, ss = [(d1, FetchRejected e, io1)] → err = e) ∧
        (∀ d1 r1 io1 d2 e io2,
           ss = [(d1, FetchFulfilled r1, io1);
                 (d2, FetchRejected e, io2)] → err = e)
    | _ =>
        store w' = store w ∧
        weatherData (ui w') = weatherData (ui w) ∧
        forecastData (ui w') = forecastData (ui w) ∧
        lastUpdated (ui w') = lastUpdated (ui w)
    end.
Proof.
  intros Hp Hd Hrun. unfold fetch_cycle in Hrun.
  rewrite run_cons, (step_advance_fire dt w C deadline) in Hrun by done.
  cbv beta iota in Hrun.
  explore Hrun.
Qed.


(** C3: a fetch cycle that rejects -- the invocation ends in its [catch]
    block, and not because the storage refused the cache write -- leaves
    [isLoading] [false] and [error] set to the message of the exception;
    [weatherData], [forecastData] and [lastUpdated] are what they were
    before the cycle. *)
Theorem rejected_cycle_keeps_previous_data
    (w : world) (C : value) (deadline dt : N)
    (ss : list (N * settlement * sync_io)) (w' : world) (err : js_error) :
  pending w = Some (C, deadline) → (deadline ≤ now w + dt)%N →
  writes_accepted ss →
  run (fetch_cycle (next_task w) dt ss) w = Next w' →
  tasks w' !! next_task w = Some (Finished (Some err)) →
  isLoading (ui w') = false ∧
  error (ui w') = VStr (message err) ∧
  weatherData (ui w') = weatherData (ui w) ∧
  forecastData (ui w') = forecastData (ui w) ∧
  lastUpdated (ui w') = lastUpdated (ui w).
Proof.
  intros Hp Hd Hacc Hrun Hend.
  destruct (cycle_inversion w C deadline dt ss w' Hp Hd Hrun)
    as (p & Hlook & Hcases).
  rewrite Hend in Hlook. injection Hlook as <-.
  destruct Hcases as (_ & Hload & Herr & [Hbad | Hdata] & _); [done |].
  by repeat split; try apply Hdata.
Qed.

Lemma rejected_cycle_keeps_previous_data_witness :
  let w := with_paris_data
             (with_pending (Some (VStr "Atlantis", 300%N))
                (with_stage Live (boot (VStr "k") ∅ 0))) in
  let ss := [(120%N, FetchFulfilled {| status := 404 |}, calm);
             (80%N, FetchFulfilled {| status := 404 |}, calm)] in
  ∃ w',
    run (fetch_cycle 0 300 ss) w = Next w' ∧
    isLoading (ui w') = false ∧
    error (ui w') = VStr "City not found" ∧
    weatherData (ui w') = VObj [("temp", VNum "21.5")] ∧
    forecastData (ui w') = VObj [("list", VArr [])] ∧
    lastUpdated (ui w') = VStr "2024-01-01T00:00:00.000Z".
Proof.
  intros w ss.
  destruct (run (fetch_cycle 0 300 ss) w) as [w' | |] eqn:Hrun;
    try (vm_compute in Hrun; discriminate Hrun).
  exists w'. split; [reflexivity |].
  apply (rejected_cycle_keeps_previous_data
           w (VStr "Atlantis") 300 300 ss w' (Error "City not found")).
  - reflexivity.
  - vm_compute. discriminate.
  - repeat constructor.
  - exact Hrun.
  - vm_compute in Hrun. injection Hrun as <-. vm_compute. reflexivity.
Defined.

(** ** The error shown to the user *)

(** C5, as stated, fails: when the current-conditions request is rejected
    at the network level, the error put in the state is the message of that
    rejection, not the fixed one. *)
Lemma network_error_shows_its_own_message :
  let w := with_pending (Some (VStr "Delhi", 300%N))
             (with_stage Live (boot (VStr "k") ∅ 0)) in
  let offline := {| name := "TypeError"; message := "Failed to fetch" |} in
  ∃ w',
    run (fetch_cycle 0 300 [(120%N, FetchRejected offline, calm)]) w
      = Next w' ∧
    tasks w' !! 0 = Some (Finished (Some offline)) ∧
    error (ui w') = VStr "Failed to fetch" ∧
    error (ui w') ≠ VStr "City not found".
Proof.
  intros w offline. eexists.
  split; [vm_compute; reflexivity |].
  repeat split; try (vm_compute; reflexivity).
  vm_compute. discriminate.
Qed.

(** C5, amended: the error that a failing fetch cycle puts in the state is
    the message of the exception its [catch] block received.  That is the
    fixed message "City not found" when both requests are answered and one
    of the answers has a non-success status, whatever the status; and it is
    the message of the network error when one of the two requests is
    rejected. *)
Theorem failed_cycle_shows_message_of_its_exception
    (w : world) (C : value) (deadline dt : N)
    (ss : list (N * settlement * sync_io)) (w' : world) (err : js_error) :
  pending w = Some (C, deadline) → (deadline ≤ now w + dt)%N →
  run (fetch_cycle (next_task w) dt ss) w = Next w' →
  tasks w' !! next_task w = Some (Finished (Some err)) →
  error (ui w') = VStr (message err) ∧
  (∀ d1 r1 io1 d2 r2 io2,
     ss = [(d1, FetchFulfilled r1, io1); (d2, FetchFulfilled r2, io2)] →
     ok r1 && ok r2 = false ∧ err = Error "City not found") ∧
  (∀ d1 e io1, ss = [(d1, FetchRejected e, io1)] → err = e) ∧
  (∀ d1 r1 io1 d2 e io2,
     ss = [(d1, FetchFulfilled r1, io1); (d2, FetchRejected e, io2)] →
     err = e).
Proof.
  intros Hp Hd Hrun Hend.
  destruct (cycle_inversion w C deadline dt ss w' Hp Hd Hrun)
    as (p & Hlook & Hcases).
  rewrite Hend in Hlook. injection Hlook as <-.
  destruct Hcases as (_ & _ & Herr & _ & Hcauses).
  split; [exact Herr | exact Hcauses].
Qed.

Lemma failed_cycle_shows_message_of_its_exception_witness :
  let w := with_pending (Some (VStr "Atlantis", 300%N))
             (with_stage Live (boot (VStr "bad key") ∅ 0)) in
  let ss := [(120%N, FetchFulfilled {| status := 401 |}, calm);
             (80%N, FetchFulfilled {| status := 401 |}, calm)] in
  ∃ w',
    run (fetch_cycle 0 300 ss) w = Next w' ∧
    error (ui w') = VStr "City not found".
Proof.
  intros w ss.
  destruct (run (fetch_cycle 0 300 ss) w) as [w' | |] eqn:Hrun;
    try (vm_compute in Hrun; discriminate Hrun).
  exists w'. split; [reflexivity |].
  apply (failed_cycle_shows_message_of_its_exception
           w (VStr "Atlantis") 300 300 ss w' (Error "City not found")).
  - reflexivity.
  - vm_compute. discriminate.
  - exact Hrun.
  - vm_compute in Hrun. injection Hrun as <-. vm_compute. reflexivity.
Defined.

(** ** The cache *)

(** C9: a fetch cycle that fails leaves the cache as it was, whatever the
    exception its [catch] block received; and if the cache is not as it was
    after a cycle, then both requests were answered with a success status
    and both bodies parsed (and the write was accepted). *)
Theorem failed_cycle_leaves_cache_untouched
    (w : world) (C : value) (deadline dt : N)
    (ss : list (N * settlement * sync_io)) (w' : world) :
  pending w = Some (C, deadline) → (deadline ≤ now w + dt)%N →
  run (fetch_cycle (next_task w) dt ss) w = Next w' →
  (∀ err, tasks w' !! next_task w = Some (Finished (Some err)) →
          store w' = store w) ∧
  (store w' ≠ store w →
   ∃ d1 r1 io1 d2 r2 io2 d3 t1 io3 d4 t2 io4 wd fd,
     ss = [(d1, FetchFulfilled r1, io1); (d2, FetchFulfilled r2, io2);
           (d3, BodyFulfilled t1, io3); (d4, BodyFulfilled t2, io4)] ∧
     ok r1 = true ∧ ok r2 = true ∧
     JSON.parse t1 = Some wd ∧ JSON.parse t2 = Some fd ∧
     setItem_throws io4 = None).
Proof.
  intros Hp Hd Hrun.
  destruct (cycle_inversion w C deadline dt ss w' Hp Hd Hrun)
    as (p & Hlook & Hcases).
  split.
  - intros err Hend. rewrite Hend in Hlook. injection Hlook as <-.
    apply Hcases.
  - intros Hchanged.
    destruct p as [? | ? ? | ? ? | ? ? | [err |]];
      try (destruct Hcases as [Hsame _]; contradiction).
    exact Hcases.
Qed.

Lemma failed_cycle_leaves_cache_untouched_witness :
  let w := with_store {[ CACHE_KEY := "old" ]}
             (with_pending (Some (VStr "Delhi", 300%N))
                (with_stage Live (boot (VStr "k") ∅ 0))) in
  let ss := [(120%N, FetchFulfilled {| status := 200 |}, calm);
             (80%N, FetchFulfilled {| status := 200 |}, calm);
             (5%N, BodyFulfilled "<html>", calm)] in
  ∃ w',
    run (fetch_cycle 0 300 ss) w = Next w' ∧
    tasks w' !! 0 = Some (Finished (Some SyntaxError)) ∧
    store w' = {[ CACHE_KEY := "old" ]}.
Proof.
  intros w ss.
  destruct (run (fetch_cycle 0 300 ss) w) as [w' | |] eqn:Hrun;
    try (vm_compute in Hrun; discriminate Hrun).
  assert (Hend : tasks w' !! 0 = Some (Finished (Some SyntaxError))).
  { vm_compute in Hrun. injection Hrun as <-. vm_compute. reflexivity. }
  exists w'. split; [reflexivity |]. split; [exact Hend |].
  destruct (failed_cycle_leaves_cache_untouched
              w (VStr "Delhi") 300 300 ss w') as [Hkeep _].
  - reflexivity.
  - vm_compute. discriminate.
  - exact Hrun.
  - exact (Hkeep SyntaxError Hend).
Defined.

(** ** The order of the two requests *)

(** What one step does to the list of requests and to the invocations that
    are over. *)
Lemma step_effects (e : event) (w w' : world) :
  step e w = Next w' →
  next_task w ≤ next_task w' ∧
  (∀ id x, tasks w !! id = Some (Finished x) → id < next_task w →
           tasks w' !! id = Some (Finished x)) ∧
  (requests w' = requests w ∨
   ∃ rq, requests w' = rq :: requests w ∧
     match target rq with
     | Weather =>
         issuer rq = next_task w ∧
         ∃ dt cityName deadline,
           e = Advance dt ∧ pending w = Some (cityName, deadline)
     | Forecast =>
         ∃ r io cityName,
           e = Settle (issuer rq) (FetchFulfilled r) io ∧
           tasks w !! issuer rq = Some (AwaitWeatherResponse cityName)
     end) ∧
  (∀ id, is_Some (tasks w' !! id) →
         is_Some (tasks w !! id) ∨ id < next_task w') ∧
  (unit (ui w') = unit (ui w) ∨
   unit (ui w') = "celsius" ∨ unit (ui w') = "fahrenheit").
Proof.
  intros Hstep. destruct e as [| c | | | | dt | id s io].
  - destruct (stage w) eqn:Hs;
      try (unfold step in Hstep; rewrite Hs in Hstep; discriminate Hstep).
    rewrite step_mount in Hstep by done.
    repeat case_match; simplify_eq; simpl; by auto 10.
  - destruct (stage w) eqn:Hs;
      try (unfold step in Hstep; rewrite Hs in Hstep; discriminate Hstep).
    destruct (Object_is (VStr c) (city (ui w))) eqn:Hc.
    + rewrite step_select_same in Hstep by done.
      simplify_eq; simpl; by auto 10.
    + rewrite step_select in Hstep by done.
      simplify_eq; simpl; by auto 10.
  - destruct (stage w) eqn:Hs;
      try (unfold step in Hstep; rewrite Hs in Hstep; discriminate Hstep).
    rewrite step_toggle in Hstep by done.
    simplify_eq; simpl. do 4 (split; [by auto |]).
    right. destruct (String.eqb _ _); auto.
  - destruct (stage w) eqn:Hs;
      try (unfold step in Hstep; rewrite Hs in Hstep; discriminate Hstep).
    rewrite step_refresh in Hstep by done.
    simplify_eq; simpl; by auto 10.
  - destruct (stage w) eqn:Hs;
      try (unfold step in Hstep; rewrite Hs in Hstep; discriminate Hstep).
    rewrite step_unmount in Hstep by done.
    simplify_eq; simpl; by auto 10.
  - rewrite step_advance in Hstep. injection Hstep as <-.
    destruct (pending w) as [[cityName deadline] |] eqn:Hp;
      [destruct (deadline <=? now w + dt)%N |]; simpl;
      try by auto 10.
    split; [lia |]. split.
    { intros id x Hfin Hlt. rewrite lookup_insert_ne by lia. done. }
    split.
    { right. eexists. split; [reflexivity |]. simpl. eauto 10. }
    split; [| by left].
    intros id. destruct (decide (next_task w = id)) as [<- | Hne].
    + right. lia.
    + rewrite lookup_insert_ne by done. by left.
  - destruct (tasks w !! id) as [p |] eqn:Hp.
    2: { unfold step in Hstep. rewrite Hp in Hstep.
         by destruct (stage w). }
    rewrite (step_settle _ _ _ _ _ Hp) in Hstep.
    assert (Hkeep : ∀ (p' : phase) (W : world),
      tasks W = tasks w → next_task W = next_task w →
      (∀ x, p ≠ Finished x) →
      ∀ id0 x, tasks w !! id0 = Some (Finished x) → id0 < next_task w →
               tasks (with_task id p' W) !! id0 = Some (Finished x)).
    { intros p' W HW _ Hnot id0 x Hfin _. simpl. rewrite HW.
      destruct (decide (id = id0)) as [-> | Hne].
      - rewrite Hp in Hfin. injection Hfin as ->. by destruct (Hnot x).
      - by rewrite lookup_insert_ne. }
    assert (Hdom : ∀ (p' : phase) (W : world),
      tasks W = tasks w →
      ∀ id0, is_Some (tasks (with_task id p' W) !! id0) →
             is_Some (tasks w !! id0) ∨ id0 < next_task (with_task id p' W)).
    { intros p' W HW id0. simpl. rewrite HW.
      destruct (decide (id = id0)) as [<- | Hne].
      - left. by rewrite Hp.
      - rewrite lookup_insert_ne by done. by left. }
    destruct p, s; exec; try discriminate Hstep;
      repeat (case_match; simplify_eq; simpl in *);
      simplify_eq; simpl;
      (split; [lia |]);
      (split; [by apply Hkeep |]);
      (split;
        [first [by left
               | right; eexists; split; [reflexivity |]; simpl; eauto 10] |]);
      (split; [by apply Hdom | by left]).
Qed.

(** An invocation that is over stays over, and sends nothing more. *)
Lemma finished_forever (es : list event) (w w2 : world) id x :
  tasks w !! id = Some (Finished x) → id < next_task w →
  run es w = Next w2 →
  tasks w2 !! id = Some (Finished x) ∧ id < next_task w2 ∧
  ∀ rq, rq ∈ requests w2 → issuer rq = id → rq ∈ requests w.
Proof.
  revert w. induction es as [| e es IH]; intros w Hfin Hlt Hrun.
  - injection Hrun as <-. done.
  - rewrite run_cons in Hrun.
    destruct (step e w) as [w1 | |] eqn:Hstep; try discriminate.
    destruct (step_effects e w w1 Hstep) as (Hnext & Hkeep & Hreq & _).
    destruct (IH w1 (Hkeep id x Hfin Hlt) ltac:(lia) Hrun)
      as (Hfin2 & Hlt2 & Hold).
    split; [done |]. split; [done |].
    intros rq Hin Hid. specialize (Hold rq Hin Hid).
    destruct Hreq as [Heq | (rq' & Heq & Hkind)];
      rewrite Heq in Hold; [done |].
    apply elem_of_cons in Hold as [-> | Hold]; [| done].
    exfalso. destruct (target rq').
    + destruct Hkind as [Hnew _]. lia.
    + destruct Hkind as (r & io & c & _ & Hawait).
      rewrite Hid, Hfin in Hawait. discriminate.
Qed.

(** C10: the two requests of a fetch cycle go out one after the other.
    Every step either leaves the list of requests as it is or adds one
    request to it, and a forecast request is added only by the step in which
    the current-conditions request of the same invocation, which was still
    awaited, is answered.  When instead that request is rejected, the
    invocation sends no forecast request in that step, and none in any run
    that follows. *)
Theorem forecast_request_only_after_weather_response :
  (∀ e w w', step e w = Next w' →
     requests w' = requests w ∨
     ∃ rq, requests w' = rq :: requests w ∧
       match target rq with
       | Weather =>
           issuer rq = next_task w ∧
           ∃ dt cityName deadline,
             e = Advance dt ∧ pending w = Some (cityName, deadline)
       | Forecast =>
           ∃ r io cityName,
             e = Settle (issuer rq) (FetchFulfilled r) io ∧
             tasks w !! issuer rq = Some (AwaitWeatherResponse cityName)
       end)
  ∧
  (∀ w id cityName err io,
     tasks w !! id = Some (AwaitWeatherResponse cityName) →
     id < next_task w →
     ∃ w1,
       step (Settle id (FetchRejected err) io) w = Next w1 ∧
       requests w1 = requests w ∧
       ∀ es w2, run es w1 = Next w2 →
         ∀ rq, rq ∈ requests w2 → issuer rq = id → rq ∈ requests w).
Proof.
  split.
  - intros e w w' Hstep. apply (step_effects e w w' Hstep).
  - intros w id cityName err io Hawait Hlt.
    rewrite (step_settle _ _ _ _ _ Hawait). exec.
    eexists. split; [reflexivity |]. split; [reflexivity |].
    intros es w2 Hrun rq Hin Hid.
    match type of Hrun with run es ?W = _ => set (w1 := W) in * end.
    destruct (finished_forever es w1 w2 id (Some err)) as (_ & _ & Hold);
      [simpl; apply lookup_insert_eq | done | exact Hrun |].
    exact (Hold rq Hin Hid).
Qed.

Lemma forecast_request_only_after_weather_response_witness :
  let w := started (VStr "Delhi")
             (with_pending None (with_stage Live (boot (VStr "k") ∅ 300))) in
  let offline := {| name := "TypeError"; message := "Failed to fetch" |} in
  ∃ w1 w2,
    step (Settle 0 (FetchRejected offline) calm) w = Next w1 ∧
    run [Advance 50; Refresh; Advance 400] w1 = Next w2 ∧
    ∀ rq, rq ∈ requests w2 → issuer rq = 0 → target rq = Weather.
Proof.
  intros w offline.
  destruct forecast_request_only_after_weather_response as [_ Hnever].
  destruct (Hnever w 0 (VStr "Delhi") offline calm) as (w1 & Hstep & _ & Hrest);
    [reflexivity | simpl; lia |].
  destruct (run [Advance 50; Refresh; Advance 400] w1) as [w2 | |] eqn:Hrun;
    try (vm_compute in Hstep; injection Hstep as <-;
         vm_compute in Hrun; discriminate Hrun).
  exists w1, w2. split; [exact Hstep |]. split; [exact Hrun |].
  intros rq Hin Hid. specialize (Hrest _ w2 Hrun rq Hin Hid).
  apply elem_of_cons in Hrest as [-> | Hnil]; [reflexivity |].
  inversion Hnil.
Defined.

(** ** The debounce window *)

Lemma trigger_round (w : world) (d : N) (t : trigger) :
  stage w = Live → quiet_for d w → all_fire (city (ui w)) [(d, t)] →
  ∃ w1,
    run [Advance d; trigger_event t] w = Next w1 ∧
    stage w1 = Live ∧
    city (ui w1) = trigger_city (city (ui w)) t ∧
    pending w1 = Some (city (ui w1), now w1 + wait)%N ∧
    tasks w1 = tasks w ∧ requests w1 = requests w ∧
    next_task w1 = next_task w ∧ API_KEY w1 = API_KEY w.
Proof.
  intros Hs Hq [Hfire _]. rewrite run_cons.
  assert (Hadv : step (Advance d) w = Next (with_now (now w + d)%N w)).
  { unfold quiet_for in Hq. destruct (pending w) as [[c dl] |] eqn:Hp.
    - by apply (step_advance_quiet d w c dl).
    - by apply step_advance_idle. }
  rewrite Hadv. cbv beta iota. rewrite run_cons.
  destruct t as [| c]; simpl trigger_event.
  - rewrite step_refresh by done. eexists. by repeat split.
  - rewrite step_select by done. eexists. by repeat split.
Qed.

Lemma burst_run (ts : list (N * trigger)) (w : world) :
  stage w = Live →
  pending w = Some (city (ui w), now w + wait)%N →
  Forall (λ x, x.1 < wait)%N ts →
  all_fire (city (ui w)) ts →
  ∃ w1,
    run (burst ts) w = Next w1 ∧
    stage w1 = Live ∧
    city (ui w1) = last_city (city (ui w)) ts ∧
    pending w1 = Some (city (ui w1), now w1 + wait)%N ∧
    tasks w1 = tasks w ∧ requests w1 = requests w ∧
    next_task w1 = next_task w ∧ API_KEY w1 = API_KEY w.
Proof.
  revert w. induction ts as [| [d t] ts IH]; intros w Hs Hp Hgap Hfire.
  - exists w. by repeat split.
  - apply Forall_cons in Hgap as [Hd Hgap]. simpl in Hd.
    destruct Hfire as [Hfire1 Hfire].
    destruct (trigger_round w d t Hs) as
      (w1 & Hrun1 & Hs1 & Hc1 & Hp1 & Ht1 & Hr1 & Hn1 & Hk1).
    { unfold quiet_for. rewrite Hp. unfold wait in *. lia. }
    { by split. }
    rewrite <- Hc1 in Hfire.
    destruct (IH w1 Hs1 Hp1 Hgap Hfire) as
      (w2 & Hrun2 & Hs2 & Hc2 & Hp2 & Ht2 & Hr2 & Hn2 & Hk2).
    exists w2. split.
    { change (burst ((d, t) :: ts))
        with (Advance d :: trigger_event t :: burst ts).
      rewrite run_cons in Hrun1 |- *.
      destruct (step (Advance d) w) as [wa | |]; try discriminate.
      rewrite run_cons in Hrun1 |- *.
      destruct (step (trigger_event t) wa) as [wb | |]; try discriminate.
      injection Hrun1 as ->. exact Hrun2. }
    repeat split; try congruence.
    rewrite Hc2, Hc1. reflexivity.
Qed.

Lemma run_app (es1 es2 : list event) (w w1 : world) :
  run es1 w = Next w1 → run (es1 ++ es2) w = run es2 w1.
Proof.
  revert w. induction es1 as [| e es1 IH]; intros w Hrun.
  - by injection Hrun as ->.
  - simpl app. rewrite run_cons in Hrun |- *.
    destruct (step e w); try discriminate. by apply IH.
Qed.

(** C1: take any burst of fetch triggers (clicks on Refresh, selections
    that change the city) in which the first trigger comes before any
    pending debounce timer fires -- the pending call of the startup is such
    a timer -- and every later trigger comes less than 300 ms after the one
    before it.  Once 300 ms or more have passed after the last trigger,
    exactly one invocation of the fetch function has started, it is for the
    city name of the last trigger, and exactly one request, for that city,
    has been sent; the debounce slot is empty. *)
Theorem burst_collapses_to_last_trigger
    (w : world) (d0 : N) (t0 : trigger) (ts : list (N * trigger)) (dt : N) :
  stage w = Live →
  quiet_for d0 w →
  Forall (λ x, x.1 < wait)%N ts →
  all_fire (city (ui w)) ((d0, t0) :: ts) →
  (wait ≤ dt)%N →
  let cityName := last_city (city (ui w)) ((d0, t0) :: ts) in
  ∃ w',
    run (burst ((d0, t0) :: ts) ++ [Advance dt]) w = Next w' ∧
    pending w' = None ∧
    next_task w' = S (next_task w) ∧
    tasks w' = <[next_task w := AwaitWeatherResponse cityName]> (tasks w) ∧
    requests w' =
      {| issuer := next_task w; target := Weather;
         url := endpoint_url Weather cityName (API_KEY w) |} :: requests w.
Proof.
  intros Hs Hq Hgap [Hfire0 Hfire] Hdt cityName.
  destruct (trigger_round w d0 t0 Hs Hq) as
    (w1 & Hrun1 & Hs1 & Hc1 & Hp1 & Ht1 & Hr1 & Hn1 & Hk1); [by split |].
  rewrite <- Hc1 in Hfire.
  destruct (burst_run ts w1 Hs1 Hp1 Hgap Hfire) as
    (w2 & Hrun2 & Hs2 & Hc2 & Hp2 & Ht2 & Hr2 & Hn2 & Hk2).
  assert (Hcity : city (ui w2) = cityName).
  { rewrite Hc2, Hc1. reflexivity. }
  assert (Hrun : run (burst ((d0, t0) :: ts)) w = Next w2).
  { change (burst ((d0, t0) :: ts))
      with ([Advance d0; trigger_event t0] ++ burst ts).
    by rewrite (run_app _ _ _ _ Hrun1). }
  rewrite (run_app _ _ _ _ Hrun), run_cons.
  rewrite (step_advance_fire dt w2 (city (ui w2)) (now w2 + wait)%N)
    by (done || lia).
  eexists. split; [reflexivity |]. simpl.
  rewrite Hcity, Ht2, Ht1, Hr2, Hr1, Hn2, Hn1, Hk2, Hk1.
  by repeat split.
Qed.

Lemma burst_collapses_to_last_trigger_witness :
  let w := with_pending (Some (VStr "Delhi", 300%N))
             (with_stage Live (boot (VStr "k") ∅ 0)) in
  ∃ w',
    run (burst [(100%N, ByRefresh); (250%N, BySelect "Paris");
                (299%N, BySelect "Oslo"); (0%N, ByRefresh)]
         ++ [Advance 300]) w = Next w' ∧
    pending w' = None ∧
    tasks w' = {[ 0 := AwaitWeatherResponse (VStr "Oslo") ]} ∧
    requests w' =
      [ {| issuer := 0; target := Weather;
           url := endpoint_url Weather (VStr "Oslo") (VStr "k") |} ].
Proof.
  intros w.
  destruct (burst_collapses_to_last_trigger w 100 ByRefresh
              [(250%N, BySelect "Paris"); (299%N, BySelect "Oslo");
               (0%N, ByRefresh)] 300)
    as (w' & Hrun & Hp & _ & Ht & Hr).
  - reflexivity.
  - vm_compute. reflexivity.
  - repeat constructor.
  - repeat split.
  - vm_compute. discriminate.
  - exists w'. repeat split; assumption.
Defined.

(** ** Worlds that the component can be in *)

Lemma run_well_formed (es : list event) (w w' : world) :
  run es w = Next w' → well_formed w → well_formed w'.
Proof.
  revert w. induction es as [| e es IH]; intros w Hrun Hwf.
  - by injection Hrun as <-.
  - rewrite run_cons in Hrun.
    destruct (step e w) as [w1 | |] eqn:Hstep; try discriminate.
    apply (IH w1 Hrun).
    destruct (step_effects e w w1 Hstep) as (Hnext & _ & _ & Hdom & Hunit).
    destruct Hwf as [Hbelow Hu]. split.
    + intros id Hid. destruct (Hdom id Hid) as [Hold | Hnew]; [| done].
      specialize (Hbelow id Hold). lia.
    + destruct Hunit as [-> | Hunit]; done.
Qed.


(** ** The scenarios of the specification, run on the model *)

(** Scenario A: no cache, both endpoints answer with success. *)
Example scenario_A :
  ∃ w',
    run (Mount ::
         fetch_cycle 0 300
           [(120%N, FetchFulfilled {| status := 200 |}, calm);
            (80%N, FetchFulfilled {| status := 200 |}, calm);
            (5%N, BodyFulfilled "{}", calm);
            (5%N, BodyFulfilled "[]", calm)])
        (boot (VStr "k") ∅ 0) = Next w' ∧
    ui w' =
      {| city := VStr "Delhi"; weatherData := VObj [];
         forecastData := VArr []; isLoading := false; error := VNull;
         unit := "celsius";
         lastUpdated := VStr "1970-01-01T00:00:00.510Z" |} ∧
    JSON.parse <$> (store w' !! CACHE_KEY) =
      Some (Some (VObj [("city", VStr "Delhi"); ("weatherData", VObj []);
                        ("forecastData", VArr []);
                        ("lastUpdated", VStr "1970-01-01T00:00:00.510Z")])).
Proof.
  eexists. split; [vm_compute; reflexivity |].
  split; vm_compute; reflexivity.
Qed.

(** Scenario C: both endpoints answer "Atlantis" with a non-success
    status. *)
Example scenario_C :
  ∃ w',
    run [Mount; Advance 300; SelectCity "Atlantis"; Advance 300;
         Advance 90; Settle 1 (FetchFulfilled {| status := 404 |}) calm;
         Advance 90; Settle 1 (FetchFulfilled {| status := 404 |}) calm]
        (boot (VStr "k") ∅ 0) = Next w' ∧
    error (ui w') = VStr "City not found" ∧ isLoading (ui w') = false.
Proof.
  eexists. split; [vm_compute; reflexivity |].
  split; vm_compute; reflexivity.
Qed.

(** Scenario E: a refresh, then a change of city before the window has
    elapsed: one fetch, for the new city. *)
Example scenario_E :
  ∃ w',
    run [Refresh; Advance 10; SelectCity "Oslo"; Advance 300]
        (with_stage Live (boot (VStr "k") ∅ 0)) = Next w' ∧
    tasks w' = {[ 0 := AwaitWeatherResponse (VStr "Oslo") ]} ∧
    length (requests w') = 1.
Proof.
  eexists. split; [vm_compute; reflexivity |].
  split; vm_compute; reflexivity.
Qed.

(** * Further properties of the component *)

(** ** Selections *)

(** X1: selecting the city that is already the current one does nothing at
    all: no state cell changes, no debounced call is made or restarted, no
    request will follow from it. *)
Theorem selecting_current_city_changes_nothing (w : world) (c : string) :
  stage w = Live → city (ui w) = VStr c →
  step (SelectCity c) w = Next w.
Proof.
  intros Hs Hc. rewrite step_select_same; [| done |].
  - destruct w as [[ci wd fd l e u lu] st pe ta nt n rq sg k].
    simpl in *. by subst.
  - rewrite Hc. apply Object_is_refl.
Qed.

Lemma selecting_current_city_changes_nothing_witness :
  let w := with_pending (Some (VStr "Delhi", 300%N))
             (with_stage Live (boot (VStr "k") ∅ 0)) in
  run [Advance 100; SelectCity "Delhi"; Advance 199] w
  = Next (with_now 299 w).
Proof.
  intros w.
  assert (H1 : step (Advance 100) w = Next (with_now 100 w))
    by (vm_compute; reflexivity).
  rewrite run_cons, H1. cbv beta iota.
  rewrite run_cons.
  rewrite (selecting_current_city_changes_nothing (with_now 100 w) "Delhi")
    by reflexivity.
  vm_compute. reflexivity.
Defined.

(** ** The unit *)

(** X2: in every world that the component reaches, from any storage and
    with any key, [unit] is "celsius" or "fahrenheit": nothing but
    [toggleUnit] writes the cell, and it writes one of the two. *)
Theorem unit_is_always_one_of_two
    (key : value) (storage : gmap string string) (t : N) (w : world) :
  reachable key storage t w →
  unit (ui w) = "celsius" ∨ unit (ui w) = "fahrenheit".
Proof.
  intros [es Hrun].
  apply (run_well_formed es (boot key storage t) w Hrun). split.
  - intros id [p Hp]. simpl in Hp. by rewrite lookup_empty in Hp.
  - by left.
Qed.

Lemma unit_is_always_one_of_two_witness :
  ∃ w, run [Mount; ToggleUnit; Advance 300; ToggleUnit; ToggleUnit]
         (boot (VStr "k") ∅ 0) = Next w ∧
       unit (ui w) = "fahrenheit".
Proof.
  destruct (run [Mount; ToggleUnit; Advance 300; ToggleUnit; ToggleUnit]
              (boot (VStr "k") ∅ 0)) as [w | |] eqn:Hrun;
    try (vm_compute in Hrun; discriminate Hrun).
  exists w. split; [reflexivity |].
  destruct (unit_is_always_one_of_two (VStr "k") ∅ 0 w) as [Hc | Hf].
  - by eexists.
  - vm_compute in Hrun. injection Hrun as <-. discriminate Hc.
  - exact Hf.
Defined.

(** ** Startup with a cache that has no city *)



(** ** Invocations that overlap *)

(** X4: nothing orders the completions of two invocations that are in
    flight together, and a completion does not look at the selected city.
    When both are at their last [await] and both bodies parse, the one that
    completes last decides [weatherData], [forecastData] and the cache
    record, whichever started first; [city] stays what it is. *)
Theorem last_completion_wins
    (w : world) (id1 id2 : nat) (A B wd1 wd2 fd1 fd2 : value)
    (t1 t2 : string) (io1 io2 : sync_io) :
  id1 ≠ id2 →
  tasks w !! id1 = Some (AwaitForecastJson A wd1) →
  tasks w !! id2 = Some (AwaitForecastJson B wd2) →
  JSON.parse t1 = Some fd1 → JSON.parse t2 = Some fd2 →
  setItem_throws io1 = None → setItem_throws io2 = None →
  ∃ w',
    run [Settle id2 (BodyFulfilled t2) io2;
         Settle id1 (BodyFulfilled t1) io1] w = Next w' ∧
    weatherData (ui w') = wd1 ∧ forecastData (ui w') = fd1 ∧
    city (ui w') = city (ui w) ∧
    ∃ stamp,
      store w' !! CACHE_KEY =
        Some (ToString (JSON.stringify (cache_record A wd1 fd1 stamp))).
Proof.
  intros Hne H1 H2 Hp1 Hp2 Hio1 Hio2.
  rewrite run_cons, (step_settle w id2 _ _ _ H2). exec.
  rewrite Hp2, Hio2. simpl.
  rewrite run_cons.
  erewrite step_settle;
    [| simpl; rewrite lookup_insert_ne by done; exact H1].
  exec. rewrite Hp1, Hio1. simpl.
  eexists. split; [reflexivity |]. simpl.
  repeat split. eexists. apply lookup_insert_eq.
Qed.

Lemma last_completion_wins_witness :
  let w := with_task 1 (AwaitForecastJson (VStr "Oslo") (VObj []))
             (with_task 0 (AwaitForecastJson (VStr "Paris") (VArr []))
                (with_ui (put_city (VStr "Oslo"))
                   (with_stage Live (boot (VStr "k") ∅ 0)))) in
  ∃ w',
    run [Settle 1 (BodyFulfilled "1") calm;
         Settle 0 (BodyFulfilled "2") calm] w = Next w' ∧
    city (ui w') = VStr "Oslo" ∧
    weatherData (ui w') = VArr [] ∧ forecastData (ui w') = VNum "2" ∧
    ∃ stamp,
      store w' !! CACHE_KEY =
        Some (ToString (JSON.stringify
                          (cache_record (VStr "Paris") (VArr []) (VNum "2")
                             stamp))).
Proof.
  intros w.
  destruct (last_completion_wins w 0 1 (VStr "Paris") (VStr "Oslo")
              (VArr []) (VObj []) (VNum "2") (VNum "1") "2" "1" calm calm)
    as (w' & Hrun & Hwd & Hfd & Hcity & Hstore);
    try (vm_compute; reflexivity).
  { discriminate. }
  exists w'. repeat split; assumption.
Defined.

(** X5: the success path never clears [error] (only the start of an
    invocation does, line 24).  When one invocation fails while another is
    at its last [await], and that one then completes successfully, the
    state ends with the message of the failure next to the fresh data. *)
Theorem error_survives_later_success
    (w : world) (id1 id2 : nat) (A B wd fd : value) (e : js_error)
    (t : string) (io1 io2 : sync_io) :
  id1 ≠ id2 →
  tasks w !! id1 = Some (AwaitWeatherResponse A) →
  tasks w !! id2 = Some (AwaitForecastJson B wd) →
  JSON.parse t = Some fd → setItem_throws io2 = None →
  ∃ w',
    run [Settle id1 (FetchRejected e) io1;
         Settle id2 (BodyFulfilled t) io2] w = Next w' ∧
    error (ui w') = VStr (message e) ∧
    weatherData (ui w') = wd ∧ forecastData (ui w') = fd ∧
    isLoading (ui w') = false ∧
    tasks w' !! id2 = Some (Finished None).
Proof.
  intros Hne H1 H2 Hp Hio.
  rewrite run_cons, (step_settle w id1 _ _ _ H1). exec.
  rewrite run_cons.
  erewrite step_settle;
    [| simpl; rewrite lookup_insert_ne by done; exact H2].
  exec. rewrite Hp, Hio. simpl.
  eexists. split; [reflexivity |]. simpl.
  repeat split. apply lookup_insert_eq.
Qed.

Lemma error_survives_later_success_witness :
  let w := with_task 1 (AwaitForecastJson (VStr "Oslo") (VObj []))
             (with_task 0 (AwaitWeatherResponse (VStr "Paris"))
                (with_stage Live (boot (VStr "k") ∅ 0))) in
  let offline := {| name := "TypeError"; message := "Failed to fetch" |} in
  ∃ w',
    run [Settle 0 (FetchRejected offline) calm;
         Settle 1 (BodyFulfilled "[]") calm] w = Next w' ∧
    error (ui w') = VStr "Failed to fetch" ∧
    weatherData (ui w') = VObj [] ∧ forecastData (ui w') = VArr [].
Proof.
  intros w offline.
  destruct (error_survives_later_success w 0 1 (VStr "Paris") (VStr "Oslo")
              (VObj []) (VArr []) offline "[]" calm calm)
    as (w' & Hrun & Herr & Hwd & Hfd & _);
    try (vm_compute; reflexivity).
  { discriminate. }
  exists w'. repeat split; assumption.
Defined.

(** X6: whenever an invocation ends, by either way out, [isLoading]
    becomes [false], and the other invocations are left as they are: the
    loading line goes away although a fetch may still be in flight. *)
Theorem loading_cleared_when_any_invocation_ends
    (w w' : world) (id : nat) (s : settlement) (io : sync_io)
    (x : option js_error) :
  step (Settle id s io) w = Next w' →
  tasks w' !! id = Some (Finished x) →
  isLoading (ui w') = false ∧
  loading_line (App_render (ui w')) = false ∧
  ∀ id', id' ≠ id → tasks w' !! id' = tasks w !! id'.
Proof.
  intros Hstep Hend.
  destruct (tasks w !! id) as [p |] eqn:Hp.
  2: { unfold step in Hstep. rewrite Hp in Hstep.
       by destruct (stage w). }
  rewrite (step_settle _ _ _ _ _ Hp) in Hstep.
  destruct p, s; exec; try discriminate Hstep;
    repeat (case_match; simplify_eq; simpl in *);
    simplify_eq; simpl in *;
    rewrite lookup_insert_eq in Hend; simplify_eq;
    (split; [reflexivity |]); (split; [reflexivity |]);
    intros id' Hne; by rewrite lookup_insert_ne.
Qed.

Lemma loading_cleared_when_any_invocation_ends_witness :
  let w := with_task 1 (AwaitWeatherResponse (VStr "Oslo"))
             (with_task 0 (AwaitWeatherResponse (VStr "Paris"))
                (with_stage Live (boot (VStr "k") ∅ 0))) in
  let offline := {| name := "TypeError"; message := "Failed to fetch" |} in
  ∃ w',
    step (Settle 0 (FetchRejected offline) calm) w = Next w' ∧
    isLoading (ui w') = false ∧
    tasks w' !! 1 = Some (AwaitWeatherResponse (VStr "Oslo")).
Proof.
  intros w offline.
  destruct (step (Settle 0 (FetchRejected offline) calm) w)
    as [w' | |] eqn:Hstep;
    try (vm_compute in Hstep; discriminate Hstep).
  exists w'. split; [reflexivity |].
  destruct (loading_cleared_when_any_invocation_ends
              w w' 0 (FetchRejected offline) calm (Some offline) Hstep)
    as (Hload & _ & Hothers).
  { vm_compute in Hstep. injection Hstep as <-. vm_compute. reflexivity. }
  split; [exact Hload |].
  rewrite (Hothers 1) by discriminate. vm_compute. reflexivity.
Defined.

(** ** What a step can do to invocations, requests and storage *)

Lemma step_shape (e : event) (w w' : world) :
  step e w = Next w' →
  API_KEY w' = API_KEY w ∧
  ((tasks w' = tasks w ∧ requests w' = requests w ∧
    next_task w' = next_task w ∧ store w' = store w)
   ∨ (∃ c, tasks w' = <[next_task w := AwaitWeatherResponse c]> (tasks w) ∧
           requests w' =
             request_of (next_task w) Weather c (API_KEY w) :: requests w ∧
           next_task w' = S (next_task w) ∧ store w' = store w)
   ∨ (∃ id p p', tasks w !! id = Some p ∧
                 tasks w' = <[id := p']> (tasks w) ∧
                 next_task w' = next_task w ∧
                 moves id (API_KEY w) p p' (requests w) (requests w')
                   (store w) (store w'))).
Proof.
  intros Hstep. destruct e as [| c | | | | dt | id s io].
  - destruct (stage w) eqn:Hs;
      try (unfold step in Hstep; rewrite Hs in Hstep; discriminate Hstep).
    rewrite step_mount in Hstep by done.
    repeat case_match; simplify_eq; simpl; by auto 10.
  - destruct (stage w) eqn:Hs;
      try (unfold step in Hstep; rewrite Hs in Hstep; discriminate Hstep).
    destruct (Object_is (VStr c) (city (ui w))) eqn:Hc.
    + rewrite step_select_same in Hstep by done.
      simplify_eq; simpl; by auto 10.
    + rewrite step_select in Hstep by done.
      simplify_eq; simpl; by auto 10.
  - destruct (stage w) eqn:Hs;
      try (unfold step in Hstep; rewrite Hs in Hstep; discriminate Hstep).
    rewrite step_toggle in Hstep by done.
    simplify_eq; simpl; by auto 10.
  - destruct (stage w) eqn:Hs;
      try (unfold step in Hstep; rewrite Hs in Hstep; discriminate Hstep).
    rewrite step_refresh in Hstep by done.
    simplify_eq; simpl; by auto 10.
  - destruct (stage w) eqn:Hs;
      try (unfold step in Hstep; rewrite Hs in Hstep; discriminate Hstep).
    rewrite step_unmount in Hstep by done.
    simplify_eq; simpl; by auto 10.
  - rewrite step_advance in Hstep. injection Hstep as <-.
    destruct (pending w) as [[cityName deadline] |] eqn:Hp;
      [destruct (deadline <=? now w + dt)%N |]; simpl;
      try by auto 10.
    split; [done |]. right. left. by exists cityName.
  - destruct (tasks w !! id) as [p |] eqn:Hp.
    2: { unfold step in Hstep. rewrite Hp in Hstep.
         by destruct (stage w). }
    rewrite (step_settle _ _ _ _ _ Hp) in Hstep.
    destruct p, s; exec; try discriminate Hstep;
      repeat (case_match; simplify_eq; simpl in *);
      simplify_eq; simpl;
      (split; [done |]); right; right;
      do 3 eexists; (split; [exact Hp |]);
      (split; [reflexivity |]); (split; [reflexivity |]);
      simpl; eauto 10.
Qed.

(** ** The storage *)

Lemma run_store (es : list event) (w w' : world) :
  run es w = Next w' →
  (∀ k, k ≠ CACHE_KEY → store w' !! k = store w !! k) ∧
  (store w' !! CACHE_KEY = store w !! CACHE_KEY ∨
   ∃ c wd fd stamp,
     store w' !! CACHE_KEY =
       Some (ToString (JSON.stringify (cache_record c wd fd stamp)))).
Proof.
  revert w. induction es as [| e es IH]; intros w Hrun.
  - injection Hrun as <-. by auto.
  - rewrite run_cons in Hrun.
    destruct (step e w) as [w1 | |] eqn:Hstep; try discriminate.
    destruct (IH w1 Hrun) as [Hother Hslot].
    assert (Hone :
      store w1 = store w ∨
      ∃ c wd fd stamp,
        store w1 =
          <[CACHE_KEY :=
              ToString (JSON.stringify (cache_record c wd fd stamp))]>
            (store w)).
    { destruct (step_shape e w w1 Hstep)
        as [_ [(_ & _ & _ & Hst) | [(c & _ & _ & _ & Hst)
                                   | (id & p & p' & _ & _ & _ & Hmove)]]];
        [by left | by left |].
      unfold moves in Hmove.
      destruct p, p' as [| | | | [err |]]; try done;
        try (destruct Hmove as (_ & _ & Hst); by left);
        try (destruct Hmove as (_ & Hst); by left).
      destruct Hmove as (_ & fd & stamp & Hst). right. eauto. }
    split.
    + intros k Hk. rewrite (Hother k Hk).
      destruct Hone as [-> | (c & wd & fd & stamp & ->)]; [done |].
      by rewrite lookup_insert_ne.
    + destruct Hslot as [Hslot | Hslot]; [| by right].
      rewrite Hslot.
      destruct Hone as [-> | (c & wd & fd & stamp & ->)]; [by left |].
      right. exists c, wd, fd, stamp. apply lookup_insert_eq.
Qed.

(** X7: of the storage, the component only ever writes the slot
    "weatherAppCache", and never removes it.  In every world it reaches,
    every other key holds what it held before the component was mounted,
    and the slot holds either what it held then or the serialization of a
    record with the four members [city], [weatherData], [forecastData] and
    [lastUpdated]. *)
Theorem only_the_cache_slot_is_written
    (key : value) (storage : gmap string string) (t : N) (w : world) :
  reachable key storage t w →
  (∀ k, k ≠ CACHE_KEY → store w !! k = storage !! k) ∧
  (store w !! CACHE_KEY = storage !! CACHE_KEY ∨
   ∃ c wd fd stamp,
     store w !! CACHE_KEY =
       Some (ToString (JSON.stringify (cache_record c wd fd stamp)))).
Proof. intros [es Hrun]. apply (run_store es _ w Hrun). Qed.

Lemma only_the_cache_slot_is_written_witness :
  let storage : gmap string string :=
    {[ "theme" := "dark"; CACHE_KEY := "null" ]} in
  ∃ w,
    run (Mount ::
         fetch_cycle 0 300
           [(120%N, FetchFulfilled {| status := 200 |}, calm);
            (80%N, FetchFulfilled {| status := 200 |}, calm);
            (5%N, BodyFulfilled "{}", calm);
            (5%N, BodyFulfilled "[]", calm)])
        (boot (VStr "k") storage 0) = Next w ∧
    store w !! "theme" = Some "dark" ∧
    store w !! CACHE_KEY ≠ Some "null".
Proof.
  intros storage.
  match goal with
  | |- ∃ w, run ?es ?w0 = _ ∧ _ =>
      destruct (run es w0) as [w | |] eqn:Hrun;
        try (vm_compute in Hrun; discriminate Hrun)
  end.
  exists w. split; [reflexivity |].
  destruct (only_the_cache_slot_is_written (VStr "k") storage 0 w)
    as [Hother _]; [by eexists |].
  split.
  - rewrite (Hother "theme") by discriminate. vm_compute. reflexivity.
  - vm_compute in Hrun. injection Hrun as <-. vm_compute. discriminate.
Defined.

(** ** The requests of an invocation *)

Lemma sent_by_cons (id : nat) (rq : request) (w w' : world) :
  requests w' = rq :: requests w →
  sent_by id w' =
    if decide (issuer rq = id) then rq :: sent_by id w else sent_by id w.
Proof.
  intros H. unfold sent_by. rewrite H.
  destruct (decide (issuer rq = id)).
  - by rewrite filter_cons_True.
  - by rewrite filter_cons_False.
Qed.

Lemma step_orderly (key : value) (e : event) (w w' : world) :
  step e w = Next w' → orderly key w → orderly key w'.
Proof.
  intros Hstep (Hkey & Hbelow & Hsent).
  destruct (step_shape e w w' Hstep) as [Hk Hshape].
  split; [congruence |].
  destruct Hshape as [(Ht & Hr & Hn & _)
                     | [(c & Ht & Hr & Hn & _)
                       | (id0 & p & p' & Hp & Ht & Hn & Hmove)]].
  - split.
    + intros id. rewrite Ht, Hn. apply Hbelow.
    + intros id. unfold sent_by. rewrite Ht, Hr. apply Hsent.
  - assert (Hnone : tasks w !! next_task w = None).
    { destruct (tasks w !! next_task w) eqn:E; [| done].
      specialize (Hbelow (next_task w) ltac:(by eexists)). lia. }
    split.
    + intros id. rewrite Ht, Hn.
      destruct (decide (next_task w = id)) as [<- | Hne]; [lia |].
      rewrite lookup_insert_ne by done. intros H.
      specialize (Hbelow id H). lia.
    + intros id. rewrite Ht, (sent_by_cons id _ w w' Hr). simpl.
      destruct (decide (next_task w = id)) as [<- | Hne].
      * rewrite lookup_insert_eq. simpl.
        specialize (Hsent (next_task w)). rewrite Hnone in Hsent.
        by rewrite Hsent, Hkey.
      * rewrite lookup_insert_ne by done. apply Hsent.
  - split.
    + intros id. rewrite Ht, Hn.
      destruct (decide (id0 = id)) as [<- | Hne].
      * intros _. apply Hbelow. by eexists.
      * rewrite lookup_insert_ne by done. apply Hbelow.
    + intros id. rewrite Ht.
      assert (Hold := Hsent id).
      assert (Hmine := Hsent id0). rewrite Hp in Hmine.
      rewrite Hkey in Hmove.
      destruct (decide (id0 = id)) as [<- | Hne].
      * rewrite lookup_insert_eq. clear Hold.
        unfold moves in Hmove.
        destruct p, p' as [| | | | [err |]]; try done; simpl in *.
        all: try (destruct Hmove as (-> & Hr & _));
             try (destruct Hmove as (Hr & _)).
        all: try (unfold sent_by; rewrite Hr; fold (sent_by id0 w);
                  by eauto).
        rewrite (sent_by_cons id0 _ w w' Hr). simpl.
        rewrite decide_True by done. by rewrite Hmine.
      * rewrite lookup_insert_ne by done.
        assert (Hsame : sent_by id w' = sent_by id w).
        { unfold moves in Hmove.
          destruct p, p' as [| | | | [err |]]; try done.
          all: try (destruct Hmove as (-> & Hr & _));
               try (destruct Hmove as (Hr & _)).
          all: try (unfold sent_by; by rewrite Hr).
          rewrite (sent_by_cons id _ w w' Hr). simpl.
          by rewrite decide_False. }
        by rewrite Hsame.
Qed.

Lemma run_orderly (key : value) (es : list event) (w w' : world) :
  run es w = Next w' → orderly key w → orderly key w'.
Proof.
  revert w. induction es as [| e es IH]; intros w Hrun Hw.
  - by injection Hrun as <-.
  - rewrite run_cons in Hrun.
    destruct (step e w) as [w1 | |] eqn:Hstep; try discriminate.
    apply (IH w1 Hrun). by apply (step_orderly key e w).
Qed.

(** X8: in every world that the component reaches, the requests that one
    invocation of the fetch function has sent are: none, or one request to
    the current-conditions endpoint, or that request followed by one to the
    forecast endpoint for the same city and with the same key.  No
    invocation sends more than two requests, none sends the forecast
    request alone, and the two are never for different cities. *)
Theorem invocation_sends_weather_then_forecast
    (key : value) (storage : gmap string string) (t : N) (w : world)
    (id : nat) :
  reachable key storage t w →
  sent_by id w = [] ∨
  ∃ c, sent_by id w = [request_of id Weather c key] ∨
       sent_by id w = [request_of id Forecast c key;
                       request_of id Weather c key].
Proof.
  intros [es Hrun].
  assert (Hboot : orderly key (boot key storage t)).
  { split; [done |]. split.
    - intros i [p Hp]. simpl in Hp. by rewrite lookup_empty in Hp.
    - intros i. simpl. by rewrite lookup_empty. }
  destruct (run_orderly key es _ w Hrun Hboot) as (_ & _ & Hsent).
  specialize (Hsent id).
  destruct (tasks w !! id) as [p |]; [| by left].
  right. destruct p; simpl in Hsent; eauto.
Qed.

Lemma invocation_sends_weather_then_forecast_witness :
  ∃ w,
    run [Mount; Advance 300; SelectCity "Oslo"; Advance 300;
         Advance 90; Settle 1 (FetchFulfilled {| status := 200 |}) calm;
         Advance 90; Settle 0 (FetchFulfilled {| status := 500 |}) calm]
        (boot (VStr "k") ∅ 0) = Next w ∧
    (sent_by 1 w = [] ∨
     ∃ c, sent_by 1 w = [request_of 1 Weather c (VStr "k")] ∨
          sent_by 1 w = [request_of 1 Forecast c (VStr "k");
                         request_of 1 Weather c (VStr "k")]).
Proof.
  match goal with
  | |- ∃ w, run ?es ?w0 = _ ∧ _ =>
      destruct (run es w0) as [w | |] eqn:Hrun;
        try (vm_compute in Hrun; discriminate Hrun)
  end.
  exists w. split; [reflexivity |].
  apply (invocation_sends_weather_then_forecast (VStr "k") ∅ 0 w 1).
  by eexists.
Defined.

(** ** The screen *)







(** ** JSON: what is written reads back

    [JSON.parse] undoes [JSON.stringify] on JSON data, and what
    [JSON.parse] returns is JSON data. *)

Section json_round_trip.
Import JSON.

Lemma quoted_char_items (c : ascii) (cs : list ascii) :
  parse_string_items (quote_chars [c] ++ cs)
  = cons_item (item_of c) (parse_string_items cs).
Proof.
  destruct c as [[] [] [] [] [] [] [] []]; simpl; reflexivity.
Qed.

Lemma assemble_item_of (c : ascii) (its : list string_item) :
  assemble (item_of c :: its) = c :: assemble its.
Proof.
  destruct c as [[] [] [] [] [] [] [] []]; try reflexivity;
    destruct its as [| [] its]; reflexivity.
Qed.

Lemma quote_chars_cons c cs :
  quote_chars (c :: cs) = quote_chars [c] ++ quote_chars cs.
Proof. simpl. by rewrite app_nil_r. Qed.

Lemma quoted_items (s rest : list ascii) :
  ∃ its, parse_string_items (quote_chars s ++ "034"%char :: rest)
         = Some (its, rest) ∧ assemble its = s.
Proof.
  induction s as [| c s (its & Hits & Hs)].
  - exists []. split; reflexivity.
  - exists (item_of c :: its). split.
    + rewrite quote_chars_cons, <- app_assoc, quoted_char_items, Hits.
      reflexivity.
    + by rewrite assemble_item_of, Hs.
Qed.

Lemma quoted_string_reads_back (s : string) (rest : list ascii) :
  parse_string (quote_chars (list_ascii_of_string s) ++ "034"%char :: rest)
  = Some (s, rest).
Proof.
  unfold parse_string.
  destruct (quoted_items (list_ascii_of_string s) rest) as (its & -> & ->).
  by rewrite string_of_list_ascii_of_string.
Qed.

Lemma span_digits_spec cs ds r :
  span_digits cs = (ds, r) →
  cs = ds ++ r ∧ Forall (λ c, is_digit c = true) ds ∧ no_digit_ahead r.
Proof.
  revert ds r. induction cs as [| c cs IH]; intros ds r H; simpl in H.
  - by simplify_eq.
  - destruct (is_digit c) eqn:Hc.
    + destruct (span_digits cs) as [ds' r'] eqn:Hs. simplify_eq.
      destruct (IH _ _ eq_refl) as (-> & Hds & Hr).
      repeat split; [by constructor | done].
    + simplify_eq. repeat split; [constructor | done].
Qed.

Lemma span_digits_app ds x :
  Forall (λ c, is_digit c = true) ds → no_digit_ahead x →
  span_digits (ds ++ x) = (ds, x).
Proof.
  intros Hds Hx. induction Hds as [| d ds Hd _ IH]; simpl.
  - destruct x as [| c x]; [done |]. simpl in *. by rewrite Hx.
  - by rewrite Hd, IH.
Qed.

Lemma delimited_no_digit rest : delimited rest → no_digit_ahead rest.
Proof.
  destruct rest as [| c rest]; [done |]. unfold delimited, number_char.
  simpl. intros H. by repeat (apply orb_false_iff in H as [H _]).
Qed.

Lemma strip_one c cs r : strip [c] cs = Some r → cs = c :: r.
Proof.
  destruct cs as [| c' cs]; simpl; [done |].
  destruct (Ascii.eqb c c') eqn:E; [| done].
  apply Ascii.eqb_eq in E as ->. by intros [= ->].
Qed.

Lemma strip_hit c x : strip [c] (c :: x) = Some x.
Proof. simpl. by rewrite Ascii.eqb_refl. Qed.

Lemma strip_miss c a x : Ascii.eqb c a = false → strip [c] (a :: x) = None.
Proof. simpl. by intros ->. Qed.

Lemma strip_miss_inv c a x : strip [c] (a :: x) = None → Ascii.eqb c a = false.
Proof. simpl. by destruct (Ascii.eqb c a). Qed.

Lemma strip_delimited c rest :
  delimited rest → number_char c = true → strip [c] rest = None.
Proof.
  destruct rest as [| a rest]; [done |]. simpl. intros Ha Hc.
  destruct (Ascii.eqb c a) eqn:E; [| done].
  apply Ascii.eqb_eq in E as ->. congruence.
Qed.

Lemma span_digits_cons a ds x :
  Forall (λ c, is_digit c = true) (a :: ds) → no_digit_ahead x →
  span_digits (a :: ds ++ x) = (a :: ds, x).
Proof. apply (span_digits_app (a :: ds)). Qed.

Section number_literals.
#[local] Arguments strip : simpl never.
#[local] Arguments span_digits : simpl never.

Lemma parse_number_reads_back cs lit r :
  parse_number cs = Some (lit, r) →
  ∀ rest, delimited rest → parse_number (lit ++ rest) = Some (lit, rest).
Proof.
  unfold parse_number at 1. intros H rest Hrest.
  repeat match type of H with
         | context [strip ?l ?x] =>
             let E := fresh "E" in
             destruct (strip l x) eqn:E;
             [apply strip_one in E; subst |]
         | context [span_digits ?x] =>
             let E := fresh "E" in
             let ds := fresh "ds" in
             destruct (span_digits x) as [ds ?] eqn:E;
             apply span_digits_spec in E as (? & ? & ?); destruct ds; subst
         end; simplify_eq.
  all: repeat match goal with
         | E : strip [_] (_ :: _) = None |- _ => apply strip_miss_inv in E
         | E : strip [_] ((_ :: _) ++ _) = None |- _ => apply strip_miss_inv in E
         end.
  all: repeat (rewrite <- ?app_assoc, ?app_nil_r; simpl).
  all: unfold parse_number.
  all: repeat first
         [ rewrite strip_hit
         | rewrite strip_miss by (first [reflexivity | assumption])
         | rewrite strip_delimited by done
         | rewrite span_digits_cons
             by (first [assumption | exact I | reflexivity
                       | by apply delimited_no_digit])
         | progress simpl ].
  all: by rewrite ?app_nil_r.
Qed.

End number_literals.

(** *** What [JSON.stringify] writes, [JSON.parse] reads back *)

Lemma chars_app (a b : string) :
  list_ascii_of_string (a +:+ b)
  = list_ascii_of_string a ++ list_ascii_of_string b.
Proof. induction a as [| c a IH]; simpl; [done |]. by rewrite IH. Qed.

Lemma chars_quote (s : string) :
  list_ascii_of_string (quote s)
  = "034"%char :: quote_chars (list_ascii_of_string s) ++ ["034"%char].
Proof. unfold quote. by rewrite list_ascii_of_string_of_list_ascii. Qed.

Lemma next_opens t x :
  opens t → ∃ c tl, t = c :: tl ∧ next (t ++ x) = Some (c, tl ++ x)
                    ∧ Ascii.eqb c "]" = false ∧ Ascii.eqb c "}" = false.
Proof.
  intros (c & tl & -> & Hws & H1 & H2). exists c, tl.
  unfold next. simpl. by rewrite Hws.
Qed.

Lemma number_head c tl p :
  parse_number (c :: tl) = Some p → (is_digit c || Ascii.eqb c "-")%bool = true.
Proof.
  destruct (Ascii.eqb c "-") eqn:E; [by rewrite orb_true_r |].
  rewrite orb_false_r. destruct (is_digit c) eqn:Hc; [done |].
  assert (Ascii.eqb "-" c = false) as E' by by rewrite Ascii.eqb_sym.
  assert (Ascii.eqb "0" c = false) as E0.
  { destruct (Ascii.eqb "0" c) eqn:E0; [| done].
    apply Ascii.eqb_eq in E0 as <-. done. }
  unfold parse_number. rewrite (strip_miss _ _ _ E'), (strip_miss _ _ _ E0).
  cbn [span_digits]. rewrite Hc. done.
Qed.

Lemma number_head_dispatch c :
  (is_digit c || Ascii.eqb c "-")%bool = true →
  is_ws c = false ∧ Ascii.eqb c "n" = false ∧ Ascii.eqb c "t" = false
  ∧ Ascii.eqb c "f" = false ∧ Ascii.eqb c "034" = false
  ∧ Ascii.eqb c "[" = false ∧ Ascii.eqb c "{" = false
  ∧ Ascii.eqb c "]" = false ∧ Ascii.eqb c "}" = false.
Proof.
  destruct c as [[] [] [] [] [] [] [] []]; simpl; intros H;
    first [discriminate H | repeat split].
Qed.

Lemma json_data_arr items : json_data (VArr items) ↔ Forall json_data items.
Proof.
  simpl. induction items as [| x l IH]; [by split; [constructor |] |].
  rewrite Forall_cons. by rewrite IH.
Qed.

Lemma json_data_obj members :
  json_data (VObj members)
  ↔ NoDup (map fst members) ∧ Forall (λ kv, json_data kv.2) members.
Proof.
  simpl. apply and_iff_compat_l.
  induction members as [| [k x] l IH]; [by split; [constructor |] |].
  rewrite Forall_cons. by rewrite IH.
Qed.

Lemma next_cons c r : is_ws c = false → next (c :: r) = Some (c, r).
Proof. unfold next. simpl. by intros ->. Qed.

Ltac fuel_step m Hm :=
  repeat (progress (rewrite ?chars_app, ?chars_quote, ?length_app in Hm;
                    cbn [length list_ascii_of_string] in Hm));
  destruct m as [| m]; [lia |].

Lemma elements_read_back (items : list value) :
  Forall (λ x, ∃ t, written x t) items → items ≠ [] →
  ∀ rest m,
    2 * (length (list_ascii_of_string
                   (join "," (map (λ x, default "null" (serialize x)) items)))
         + 1) ≤ m →
    parse_elements m
      (list_ascii_of_string
         (join "," (map (λ x, default "null" (serialize x)) items))
       ++ "]"%char :: rest)
    = Some (items, rest).
Proof.
  induction 1 as [| x l (t & Hser & _ & Hread) Hl IH]; [done |].
  intros _ rest m Hm. destruct l as [| y l].
  - cbn [map join] in *. rewrite Hser in *. cbn [default from_option id] in *.
    fuel_step m Hm. cbn [parse_elements].
    rewrite Hread; [| done | lia].
    rewrite next_cons by done. done.
  - change (join "," (map ?f (x :: y :: l)))
      with (f x +:+ "," +:+ join "," (map f (y :: l))) in *.
    cbv beta in *. rewrite Hser in *. cbn [default from_option id] in *.
    rewrite !chars_app, <- !app_assoc.
    change (list_ascii_of_string ",") with [","%char] in *.
    cbn [app].
    fuel_step m Hm. cbn [parse_elements].
    rewrite Hread; [| done | lia].
    rewrite next_cons by done.
    change (Ascii.eqb "," ",") with true. cbv iota.
    rewrite IH; [done | done | lia].
Qed.

(** Decide the comparisons of two known characters. *)
Ltac known_chars :=
  repeat match goal with
         | |- context [Ascii.eqb ?a ?b] =>
             let v := eval vm_compute in (Ascii.eqb a b) in
             match v with
             | true => change (Ascii.eqb a b) with true
             | false => change (Ascii.eqb a b) with false
             end
         end;
  cbv iota.

Lemma obj_set_fresh k v acc :
  k ∉ map fst acc → obj_set k v acc = acc ++ [(k, v)].
Proof.
  induction acc as [| [k' v'] acc IH]; [done |]. simpl. intros Hk.
  apply not_elem_of_cons in Hk as [Hne Hk].
  destruct (String.eqb k k') eqn:E.
  - by apply String.eqb_eq in E.
  - by rewrite IH.
Qed.

Lemma serialize_obj (members : list (string * value)) :
  Forall (λ kv, ∃ t, written kv.2 t) members →
  serialize (VObj members)
  = Some ("{" +:+ join "," (map member_text members) +:+ "}").
Proof.
  intros H. cbn [serialize]. do 4 f_equal.
  induction H as [| [k x] l (t & Hser & _) _ IH]; [done |].
  cbn [map]. unfold member_text at 1. simpl in *. rewrite Hser. simpl.
  by rewrite IH.
Qed.

Lemma members_read_back (members : list (string * value)) :
  Forall (λ kv, ∃ t, written kv.2 t) members → members ≠ [] →
  NoDup (map fst members) →
  ∀ acc rest m,
    (∀ k, k ∈ map fst members → k ∉ map fst acc) →
    2 * (length (list_ascii_of_string (join "," (map member_text members)))
         + 1) ≤ m →
    parse_members m acc
      (list_ascii_of_string (join "," (map member_text members))
       ++ "}"%char :: rest)
    = Some (acc ++ members, rest).
Proof.
  induction 1 as [| [k x] l (t & Hser & _ & Hread) Hl IH]; [done |].
  intros _ Hdup acc rest m Hacc Hm.
  apply NoDup_cons in Hdup as [Hk Hdup]. simpl in Hser, Hread.
  assert (k ∉ map fst acc) as Hfresh by (apply Hacc; left).
  assert (member_text (k, x) = quote k +:+ ":" +:+ t) as Hx.
  { unfold member_text. simpl. by rewrite Hser. }
  destruct l as [| y l].
  - cbn [map join] in *. rewrite Hx in *.
    rewrite !chars_app, chars_quote, <- !app_assoc.
    cbn [list_ascii_of_string app].
    rewrite <- !app_assoc. cbn [app].
    fuel_step m Hm. cbn [parse_members].
    rewrite next_cons by done. known_chars.
    rewrite quoted_string_reads_back.
    rewrite next_cons by done. known_chars.
    rewrite Hread; [| done | lia].
    rewrite next_cons by done. known_chars.
    by rewrite obj_set_fresh.
  - change (join "," (map ?f ((k, x) :: y :: l)))
      with (f (k, x) +:+ "," +:+ join "," (map f (y :: l))) in *.
    rewrite Hx in *.
    rewrite !chars_app, chars_quote, <- !app_assoc.
    cbn [list_ascii_of_string app].
    rewrite <- !app_assoc. cbn [app].
    fuel_step m Hm. cbn [parse_members].
    rewrite next_cons by done. known_chars.
    rewrite quoted_string_reads_back.
    rewrite next_cons by done. known_chars.
    rewrite Hread; [| done | lia].
    rewrite next_cons by done. known_chars.
    rewrite obj_set_fresh by done.
    rewrite IH; [by rewrite <- app_assoc | done | done | | lia].
    intros k' Hk'. rewrite map_app, elem_of_app. intros [Hin | Hin].
    + by apply (Hacc k'); [right |].
    + simpl in Hin. apply elem_of_cons in Hin as [-> | Hin]; [done |].
      by apply elem_of_nil in Hin.
Qed.

Lemma join_head (p : string) (ps : list string) :
  ∃ more, list_ascii_of_string (join "," (p :: ps))
          = list_ascii_of_string p ++ more.
Proof.
  destruct ps as [| q ps].
  - exists []. simpl. by rewrite app_nil_r.
  - eexists. change (join "," (p :: q :: ps))
      with (p +:+ "," +:+ join "," (q :: ps)).
    by rewrite chars_app.
Qed.

Lemma joined_opens (p : string) (ps : list string) (x : list ascii) :
  opens (list_ascii_of_string p) →
  ∃ c r, next (list_ascii_of_string (join "," (p :: ps)) ++ x) = Some (c, r)
         ∧ Ascii.eqb c "]" = false ∧ Ascii.eqb c "}" = false.
Proof.
  intros Hp. destruct (join_head p ps) as [more ->].
  rewrite <- app_assoc.
  destruct (next_opens _ (more ++ x) Hp) as (c & tl & _ & Hnext & H1 & H2).
  by exists c, (tl ++ more ++ x).
Qed.

Lemma opens_known (c : ascii) (tl : list ascii) :
  (negb (is_ws c) && negb (Ascii.eqb c "]") && negb (Ascii.eqb c "}"))%bool
  = true →
  opens (c :: tl).
Proof.
  intros H. apply andb_true_iff in H as [H H3].
  apply andb_true_iff in H as [H1 H2].
  exists c, tl. by rewrite <- (negb_involutive (is_ws c)),
    <- (negb_involutive (Ascii.eqb c "]")),
    <- (negb_involutive (Ascii.eqb c "}")), H1, H2, H3.
Qed.

(** Every piece of JSON data is written as a text that reads back as
    the same value. *)
Lemma stringify_reads_back (v : value) : json_data v → ∃ t, written v t.
Proof.
  induction v as [| | b | lit | s | items IH | members IH]
    using value_nested_ind; intros Hj.
  - destruct Hj.
  - exists "null". split; [done |]. split; [by apply opens_known |].
    intros rest m _ Hm. fuel_step m Hm. done.
  - destruct b.
    + exists "true". split; [done |]. split; [by apply opens_known |].
      intros rest m _ Hm. fuel_step m Hm. done.
    + exists "false". split; [done |]. split; [by apply opens_known |].
      intros rest m _ Hm. fuel_step m Hm. done.
  - exists lit. split; [done |]. cbn [json_data] in Hj.
    remember (list_ascii_of_string lit) as L eqn:HL.
    pose proof (Hj [] I) as H0. rewrite app_nil_r in H0.
    destruct L as [| c tl]; [discriminate H0 |].
    pose proof (number_head_dispatch c (number_head _ _ _ H0))
      as (Hws & Hn & Ht & Hf & Hq & Ha & Ho & Hca & Hco).
    split; [by exists c, tl |].
    intros rest m Hrest Hm. fuel_step m Hm. cbn [parse_value].
    change ((c :: tl) ++ rest) with (c :: tl ++ rest).
    rewrite next_cons by done. rewrite Hn, Ht, Hf, Hq, Ha, Ho.
    change (c :: tl ++ rest) with ((c :: tl) ++ rest).
    rewrite (Hj rest Hrest), HL.
    by rewrite string_of_list_ascii_of_string.
  - exists (quote s). split; [done |]. rewrite chars_quote.
    split; [by apply opens_known |].
    intros rest m _ Hm. fuel_step m Hm. cbn [parse_value app].
    rewrite next_cons by done. known_chars.
    rewrite <- app_assoc. cbn [app].
    by rewrite quoted_string_reads_back.
  - apply json_data_arr in Hj.
    assert (Forall (λ x, ∃ t, written x t) items) as Hw.
    { apply Forall_forall. intros x Hx.
      rewrite Forall_forall in IH, Hj. by apply IH, Hj. }
    clear IH Hj.
    exists ("[" +:+ join "," (map (λ x, default "null" (serialize x)) items)
                +:+ "]").
    split; [done |].
    rewrite !chars_app. cbn [list_ascii_of_string app].
    split; [by apply opens_known |].
    intros rest m _ Hm. cbn [app]. rewrite <- app_assoc. cbn [app].
    fuel_step m Hm. cbn [parse_value].
    rewrite next_cons by done. known_chars.
    destruct items as [| x l].
    + cbn [map join list_ascii_of_string app].
      rewrite next_cons by done. by known_chars.
    + pose proof (Forall_inv Hw) as (t & Hser & Hopen & _).
      destruct (joined_opens t (map (λ x, default "null" (serialize x)) l)
                  ("]"%char :: rest) Hopen) as (c & r & Hnext & Hc & _).
      replace (t :: map (λ x, default "null" (serialize x)) l)
        with (map (λ x, default "null" (serialize x)) (x :: l)) in Hnext
        by (cbn [map]; by rewrite Hser).
      rewrite Hnext, Hc.
      rewrite (elements_read_back (x :: l) Hw); [done | done | lia].
  - apply json_data_obj in Hj as [Hdup Hj].
    assert (Forall (λ kv, ∃ t, written kv.2 t) members) as Hw.
    { apply Forall_forall. intros x Hx.
      rewrite Forall_forall in IH, Hj. by apply IH, Hj. }
    clear IH Hj. eexists. split; [by apply serialize_obj |].
    rewrite !chars_app. cbn [list_ascii_of_string app].
    split; [by apply opens_known |].
    intros rest m _ Hm. cbn [app]. rewrite <- app_assoc. cbn [app].
    fuel_step m Hm. cbn [parse_value].
    rewrite next_cons by done. known_chars.
    destruct members as [| [k x] l].
    + cbn [map join list_ascii_of_string app].
      rewrite next_cons by done. by known_chars.
    + pose proof (Forall_inv Hw) as (t & Hser & _). simpl in Hser.
      assert (opens (list_ascii_of_string (member_text (k, x)))) as Hopen.
      { unfold member_text. rewrite !chars_app, chars_quote.
        by apply opens_known. }
      cbn [map] in *.
      destruct (joined_opens (member_text (k, x)) (map member_text l)
                  ("}"%char :: rest) Hopen) as (c & r & Hnext & _ & Hc).
      rewrite Hnext, Hc.
      rewrite (members_read_back ((k, x) :: l) Hw); [done | done | done | |].
      * intros k' _. apply not_elem_of_nil.
      * cbn [map]. lia.
Qed.

(** [JSON.parse(JSON.stringify(v))] is [v] for JSON data. *)
Lemma parse_stringify (v : value) :
  json_data v → ∃ t, stringify v = VStr t ∧ parse t = Some v.
Proof.
  intros Hj. destruct (stringify_reads_back v Hj) as (t & Hser & _ & Hread).
  exists t. unfold stringify, parse. rewrite Hser. split; [done |].
  pose proof (Hread [] (2 * length (list_ascii_of_string t) + 2) I) as H.
  rewrite app_nil_r in H. rewrite H by lia. done.
Qed.

(** *** What [JSON.parse] returns is JSON data *)

Lemma obj_set_keys k v acc :
  NoDup (map fst acc) → NoDup (map fst (obj_set k v acc))
  ∧ ∀ k', k' ∈ map fst (obj_set k v acc) → k' = k ∨ k' ∈ map fst acc.
Proof.
  induction acc as [| [k0 v0] acc IH]; simpl.
  - intros _. split; [apply NoDup_singleton |].
    intros k' Hk'. left. apply elem_of_cons in Hk' as [-> | Hk']; [done |].
    by apply elem_of_nil in Hk'.
  - intros Hdup. apply NoDup_cons in Hdup as [Hk0 Hdup].
    destruct (String.eqb k k0) eqn:E; simpl.
    + split; [by apply NoDup_cons |]. intros k' Hk'. by right.
    + destruct (IH Hdup) as [IH1 IH2]. split.
      * apply NoDup_cons. split; [| done]. intros Hin.
        destruct (IH2 _ Hin) as [-> | Hin']; [| done].
        by rewrite String.eqb_refl in E.
      * intros k' Hk'. apply elem_of_cons in Hk' as [-> | Hk'].
        -- right. left.
        -- destruct (IH2 _ Hk') as [-> | Hin]; [by left |]. right. by right.
Qed.

Lemma obj_set_data k v acc :
  json_data v → Forall (λ kv, json_data kv.2) acc →
  Forall (λ kv, json_data kv.2) (obj_set k v acc).
Proof.
  intros Hv. induction 1 as [| [k0 v0] acc H0 Hacc IH]; simpl.
  - by repeat constructor.
  - destruct (String.eqb k k0); by constructor.
Qed.

Lemma parsed_is_data (n : nat) :
  (∀ cs v r, parse_value n cs = Some (v, r) → json_data v) ∧
  (∀ cs vs r, parse_elements n cs = Some (vs, r) → Forall json_data vs) ∧
  (∀ acc cs ms r, parse_members n acc cs = Some (ms, r) →
     NoDup (map fst acc) → Forall (λ kv, json_data kv.2) acc →
     NoDup (map fst ms) ∧ Forall (λ kv, json_data kv.2) ms).
Proof.
  induction n as [| n (IHv & IHe & IHm)]; [by repeat split |].
  split; [| split]; intros *; intros H;
    cbn [parse_value parse_elements parse_members] in H;
    repeat first
      [ discriminate H
      | match type of H with
        | context [next ?x] =>
            destruct (next x) as [[? ?] |]
        | context [Ascii.eqb ?a ?b] =>
            destruct (Ascii.eqb a b)
        | context [strip ?l ?x] =>
            destruct (strip l x);
            cbn [fmap option_fmap option_map] in H
        | context [parse_string ?x] =>
            destruct (parse_string x) as [[? ?] |]
        | context [parse_number ?x] =>
            let E := fresh "E" in
            destruct (parse_number x) as [[? ?] |] eqn:E
        | context [parse_value n ?x] =>
            let E := fresh "E" in
            destruct (parse_value n x) as [[? ?] |] eqn:E;
            [apply IHv in E |]
        | context [parse_elements n ?x] =>
            let E := fresh "E" in
            destruct (parse_elements n x) as [[? ?] |] eqn:E;
            [apply IHe in E |]
        | context [parse_members n [] ?x] =>
            let E := fresh "E" in
            destruct (parse_members n [] x) as [[? ?] |] eqn:E;
            [apply IHm in E; [| constructor | constructor] |]
        end ].
  all: try (injection H as <- <-).
  all: try done.
  all: try (by apply json_data_arr).
  all: try (apply json_data_obj; by first [done | split; constructor]).
  all: try (intros rest Hrest; rewrite list_ascii_of_string_of_list_ascii;
            by eapply parse_number_reads_back).
  all: try (by repeat constructor).
  - intros Hdup Hacc. apply IHm in H; [done | |].
    + by apply obj_set_keys.
    + by apply obj_set_data.
  - intros Hdup Hacc. split.
    + by apply obj_set_keys.
    + by apply obj_set_data.
Qed.

Lemma parse_gives_data (text : string) (v : value) :
  parse text = Some v → json_data v.
Proof.
  unfold parse. intros H.
  destruct (parse_value _ _) as [[v' r] |] eqn:Hp; [| discriminate].
  destruct (skip_ws r); [| discriminate]. simplify_eq.
  by apply (proj1 (parsed_is_data _) _ _ _ Hp).
Qed.

End json_round_trip.

(** ** A fetch that succeeds while other things happen *)

(** No event but a settlement of its own promises touches an invocation. *)
Lemma step_foreign (e : event) (w w' : world) (id : nat) :
  step e w = Next w' → foreign id e → id < next_task w →
  tasks w' !! id = tasks w !! id ∧ id < next_task w'.
Proof.
  intros Hstep He Hid. destruct e as [| c | | | | dt | i s io].
  - destruct (stage w) eqn:Hs;
      try (unfold step in Hstep; rewrite Hs in Hstep; discriminate Hstep).
    rewrite step_mount in Hstep by done.
    repeat case_match; by simplify_eq.
  - destruct (stage w) eqn:Hs;
      try (unfold step in Hstep; rewrite Hs in Hstep; discriminate Hstep).
    destruct (Object_is (VStr c) (city (ui w))) eqn:Hc.
    + rewrite step_select_same in Hstep by done. by simplify_eq.
    + rewrite step_select in Hstep by done. by simplify_eq.
  - destruct (stage w) eqn:Hs;
      try (unfold step in Hstep; rewrite Hs in Hstep; discriminate Hstep).
    rewrite step_toggle in Hstep by done. by simplify_eq.
  - destruct (stage w) eqn:Hs;
      try (unfold step in Hstep; rewrite Hs in Hstep; discriminate Hstep).
    rewrite step_refresh in Hstep by done. by simplify_eq.
  - destruct (stage w) eqn:Hs;
      try (unfold step in Hstep; rewrite Hs in Hstep; discriminate Hstep).
    rewrite step_unmount in Hstep by done. by simplify_eq.
  - rewrite step_advance in Hstep. injection Hstep as <-.
    destruct (pending w) as [[cityName deadline] |] eqn:Hp;
      [destruct (deadline <=? now w + dt)%N |]; simpl; try done.
    rewrite lookup_insert_ne by lia. split; [done | lia].
  - simpl in He.
    destruct (tasks w !! i) as [p |] eqn:Hp.
    2: { unfold step in Hstep. rewrite Hp in Hstep.
         by destruct (stage w). }
    rewrite (step_settle _ _ _ _ _ Hp) in Hstep.
    destruct p, s; exec; try discriminate Hstep;
      repeat (case_match; simplify_eq; simpl in * );
      simplify_eq; simpl;
      by rewrite lookup_insert_ne.
Qed.

Lemma run_foreign (es : list event) (w w' : world) (id : nat) :
  run es w = Next w' → Forall (foreign id) es → id < next_task w →
  tasks w' !! id = tasks w !! id ∧ id < next_task w'.
Proof.
  revert w. induction es as [| e es IH]; intros w Hrun Hes Hid.
  - by injection Hrun as <-.
  - apply Forall_cons in Hes as [He Hes]. rewrite run_cons in Hrun.
    destruct (step e w) as [w1 | |] eqn:Hstep; try discriminate.
    destruct (step_foreign e w w1 id Hstep He Hid) as [Ht Hn].
    destruct (IH w1 Hrun Hes Hn) as [Ht' Hn']. split; congruence.
Qed.

(** Only the [catch] block sets an error, and it runs in a settlement. *)
Lemma step_keeps_no_error (e : event) (w w' : world) :
  step e w = Next w' → settles_nothing e →
  error (ui w) = VNull → error (ui w') = VNull.
Proof.
  intros Hstep He Herr. destruct e as [| c | | | | dt | i s io]; [| | | | | | done].
  - destruct (stage w) eqn:Hs;
      try (unfold step in Hstep; rewrite Hs in Hstep; discriminate Hstep).
    rewrite step_mount in Hstep by done.
    repeat case_match; by simplify_eq.
  - destruct (stage w) eqn:Hs;
      try (unfold step in Hstep; rewrite Hs in Hstep; discriminate Hstep).
    destruct (Object_is (VStr c) (city (ui w))) eqn:Hc.
    + rewrite step_select_same in Hstep by done. by simplify_eq.
    + rewrite step_select in Hstep by done. by simplify_eq.
  - destruct (stage w) eqn:Hs;
      try (unfold step in Hstep; rewrite Hs in Hstep; discriminate Hstep).
    rewrite step_toggle in Hstep by done. by simplify_eq.
  - destruct (stage w) eqn:Hs;
      try (unfold step in Hstep; rewrite Hs in Hstep; discriminate Hstep).
    rewrite step_refresh in Hstep by done. by simplify_eq.
  - destruct (stage w) eqn:Hs;
      try (unfold step in Hstep; rewrite Hs in Hstep; discriminate Hstep).
    rewrite step_unmount in Hstep by done. by simplify_eq.
  - rewrite step_advance in Hstep. injection Hstep as <-.
    destruct (pending w) as [[cityName deadline] |] eqn:Hp;
      [destruct (deadline <=? now w + dt)%N |]; simpl; done.
Qed.

Lemma run_keeps_no_error (es : list event) (w w' : world) :
  run es w = Next w' → Forall settles_nothing es →
  error (ui w) = VNull → error (ui w') = VNull.
Proof.
  revert w. induction es as [| e es IH]; intros w Hrun Hes Herr.
  - by injection Hrun as <-.
  - apply Forall_cons in Hes as [He Hes]. rewrite run_cons in Hrun.
    destruct (step e w) as [w1 | |] eqn:Hstep; try discriminate.
    eapply IH; [done | done |]. by eapply step_keeps_no_error.
Qed.

(** The three settlements on the way to a success: what each leaves of
    the invocation, and that none touches [error]. *)
Lemma weather_response_arrives (w w' : world) id C r io :
  tasks w !! id = Some (AwaitWeatherResponse C) →
  step (Settle id (FetchFulfilled r) io) w = Next w' →
  tasks w' !! id = Some (AwaitForecastResponse C r) ∧
  next_task w' = next_task w ∧ error (ui w') = error (ui w).
Proof.
  intros Hp Hstep. rewrite (step_settle _ _ _ _ _ Hp) in Hstep.
  exec. simplify_eq. simpl. by rewrite lookup_insert_eq.
Qed.

Lemma forecast_response_arrives (w w' : world) id C r1 r2 io :
  tasks w !! id = Some (AwaitForecastResponse C r1) →
  ok r1 = true → ok r2 = true →
  step (Settle id (FetchFulfilled r2) io) w = Next w' →
  tasks w' !! id = Some (AwaitWeatherJson C r2) ∧
  next_task w' = next_task w ∧ error (ui w') = error (ui w).
Proof.
  intros Hp H1 H2 Hstep. rewrite (step_settle _ _ _ _ _ Hp) in Hstep.
  exec. rewrite H1, H2 in Hstep. simpl in Hstep.
  simplify_eq. simpl. by rewrite lookup_insert_eq.
Qed.

Lemma weather_body_arrives (w w' : world) id C r2 t1 wd io :
  tasks w !! id = Some (AwaitWeatherJson C r2) →
  JSON.parse t1 = Some wd →
  step (Settle id (BodyFulfilled t1) io) w = Next w' →
  tasks w' !! id = Some (AwaitForecastJson C wd) ∧
  next_task w' = next_task w ∧ error (ui w') = error (ui w).
Proof.
  intros Hp H1 Hstep. rewrite (step_settle _ _ _ _ _ Hp) in Hstep.
  exec. rewrite H1 in Hstep. simpl in Hstep.
  simplify_eq. simpl. by rewrite lookup_insert_eq.
Qed.

(** The settlement that completes a success (lines 38-51 and 55). *)
Lemma forecast_body_completes (w : world) id C wd t2 fd io :
  tasks w !! id = Some (AwaitForecastJson C wd) →
  JSON.parse t2 = Some fd → setItem_throws io = None →
  ∃ w',
    step (Settle id (BodyFulfilled t2) io) w = Next w' ∧
    ui w' = put_isLoading false
              (put_lastUpdated (VStr (Date.toISOString (now w)))
                 (put_forecastData fd (put_weatherData wd (ui w)))) ∧
    store w' =
      <[CACHE_KEY :=
          ToString (JSON.stringify
                      (cache_record C wd fd
                         (Date.toISOString (now w + date_gap io))))]>
        (store w) ∧
    tasks w' = <[id := Finished None]> (tasks w) ∧
    requests w' = requests w ∧ stage w' = stage w ∧
    API_KEY w' = API_KEY w.
Proof.
  intros Hp H1 Hio. rewrite (step_settle _ _ _ _ _ Hp).
  exec. rewrite H1. simpl. rewrite Hio. simpl.
  eexists. split; [reflexivity |]. simpl. by destruct (ui w).
Qed.

Lemma run_split (es1 es2 : list event) (w w' : world) :
  run (es1 ++ es2) w = Next w' →
  ∃ w1, run es1 w = Next w1 ∧ run es2 w1 = Next w'.
Proof.
  revert w. induction es1 as [| e es1 IH]; intros w Hrun.
  - by exists w.
  - simpl app in Hrun. rewrite run_cons in Hrun.
    destruct (step e w) as [w0 | |] eqn:Hstep; try discriminate.
    destruct (IH w0 Hrun) as (w1 & H1 & H2).
    exists w1. by rewrite run_cons, Hstep.
Qed.

(** A fetch on its way to a success, with any events of the user, of the
    clock and of other invocations in between: when only the forecast body
    is still awaited, the invocation holds its city and the parsed weather
    body, and [error] is still [null] if no promise of another invocation
    has settled since it started. *)
Lemma cycle_awaiting_last_body
    (w w4 : world)
    (C : value) (deadline dt : N) (es1 es2 es3 es4 : list event)
    (r1 r2 : Response) (t1 : string) (wd : value) (io1 io2 io3 : sync_io) :
  pending w = Some (C, deadline) → (deadline ≤ now w + dt)%N →
  Forall (foreign (next_task w)) (es1 ++ es2 ++ es3 ++ es4) →
  ok r1 = true → ok r2 = true → JSON.parse t1 = Some wd →
  run (Advance dt
         :: es1 ++ Settle (next_task w) (FetchFulfilled r1) io1
         :: es2 ++ Settle (next_task w) (FetchFulfilled r2) io2
         :: es3 ++ Settle (next_task w) (BodyFulfilled t1) io3
         :: es4) w = Next w4 →
  tasks w4 !! next_task w = Some (AwaitForecastJson C wd) ∧
  (Forall settles_nothing (es1 ++ es2 ++ es3 ++ es4) →
   error (ui w4) = VNull).
Proof.
  intros Hp Hd Hes Hr1 Hr2 Ht1 Hrun.
  set (id := next_task w) in *.
  apply Forall_app in Hes as [Hes1 Hes].
  apply Forall_app in Hes as [Hes2 Hes].
  apply Forall_app in Hes as [Hes3 Hes4].
  rewrite run_cons, (step_advance_fire dt w C deadline) in Hrun by done.
  cbv beta iota in Hrun.
  set (w0 := started C _) in Hrun.
  assert (H0 : tasks w0 !! id = Some (AwaitWeatherResponse C))
    by apply lookup_insert_eq.
  assert (N0 : id < next_task w0) by (simpl; lia).
  assert (E0 : error (ui w0) = VNull) by reflexivity.
  clearbody w0.
  (* the first round *)
  apply run_split in Hrun as (w1 & Hrun1 & Hrun).
  destruct (run_foreign es1 w0 w1 id Hrun1 Hes1 N0) as [T1 N1].
  rewrite H0 in T1. rewrite run_cons in Hrun.
  destruct (step _ w1) as [w1' | |] eqn:Hstep1; try discriminate.
  destruct (weather_response_arrives w1 w1' id C r1 io1 T1 Hstep1)
    as (T1' & N1' & E1').
  (* the second round *)
  apply run_split in Hrun as (w2 & Hrun2 & Hrun).
  destruct (run_foreign es2 w1' w2 id Hrun2 Hes2 ltac:(lia)) as [T2 N2].
  rewrite T1' in T2. rewrite run_cons in Hrun.
  destruct (step _ w2) as [w2' | |] eqn:Hstep2; try discriminate.
  destruct (forecast_response_arrives w2 w2' id C r1 r2 io2 T2 Hr1 Hr2 Hstep2)
    as (T2' & N2' & E2').
  (* the third round *)
  apply run_split in Hrun as (w3 & Hrun3 & Hrun).
  destruct (run_foreign es3 w2' w3 id Hrun3 Hes3 ltac:(lia)) as [T3 N3].
  rewrite T2' in T3. rewrite run_cons in Hrun.
  destruct (step _ w3) as [w3' | |] eqn:Hstep3; try discriminate.
  destruct (weather_body_arrives w3 w3' id C r2 t1 wd io3 T3 Ht1 Hstep3)
    as (T3' & N3' & E3').
  (* the events before the last body *)
  destruct (run_foreign es4 w3' w4 id Hrun Hes4 ltac:(lia)) as [T4 N4].
  rewrite T3' in T4.
  split; [exact T4 |].
  intros Hquiet.
  apply Forall_app in Hquiet as [Hq1 Hquiet].
  apply Forall_app in Hquiet as [Hq2 Hquiet].
  apply Forall_app in Hquiet as [Hq3 Hq4].
  apply (run_keeps_no_error es4 w3' w4 Hrun Hq4). rewrite E3'.
  apply (run_keeps_no_error es3 w2' w3 Hrun3 Hq3). rewrite E2'.
  apply (run_keeps_no_error es2 w1' w2 Hrun2 Hq2). rewrite E1'.
  by apply (run_keeps_no_error es1 w0 w1 Hrun1 Hq1).
Qed.

(** C2, as stated, fails: a fetch cycle can complete successfully and
    leave [error] set.  Two invocations for Delhi overlap (the startup one
    and one started by Refresh); the request of the second is rejected
    while the first is still waiting; then the first gets its two
    responses and its two bodies and completes without an exception.  Its
    data is in the state, and [error] is still the message of the other
    invocation: the success path of lines 37-51 does not clear it. *)
Lemma successful_cycle_can_end_with_error :
  let offline := {| name := "TypeError"; message := "Failed to fetch" |} in
  ∃ w',
    run [Mount; Advance 300; Refresh; Advance 300;
         Settle 1 (FetchRejected offline) calm;
         Settle 0 (FetchFulfilled {| status := 200 |}) calm;
         Settle 0 (FetchFulfilled {| status := 200 |}) calm;
         Settle 0 (BodyFulfilled "{}") calm;
         Settle 0 (BodyFulfilled "[1,2]") calm]
        (boot (VStr "k") ∅ 0) = Next w' ∧
    tasks w' !! 0 = Some (Finished None) ∧
    weatherData (ui w') = VObj [] ∧
    forecastData (ui w') = VArr [VNum "1"; VNum "2"] ∧
    isLoading (ui w') = false ∧
    error (ui w') = VStr "Failed to fetch" ∧
    error (ui w') ≠ VNull.
Proof.
  intros offline. eexists.
  split; [vm_compute; reflexivity |].
  repeat split; try (vm_compute; reflexivity).
  vm_compute. discriminate.
Qed.

(** C2, amended: take a fetch for city [C] started by the debounce timer
    in any world the component can be in, and let anything happen between
    its steps (actions of the user, time passing, other invocations
    starting, progressing or ending).  If its two requests are answered
    with a success status and its two bodies parse, then when the forecast
    body arrives and the cache write is accepted the invocation completes
    without an exception, and right after that step [weatherData] and
    [forecastData] are the two parsed bodies, [isLoading] is [false],
    [lastUpdated] is the time of completion, and the cache slot holds the
    serialization of the record with [city] [C], the two bodies and the
    time of a second clock reading; the two requests of the invocation
    were for [C].  The completing step leaves [error] as it was: it is
    [null] when no promise of another invocation settled in between (the
    invocation cleared it when it started), and otherwise it may be the
    message of another invocation that failed meanwhile. *)
Theorem successful_cycle_updates_state_and_cache
    (key : value) (storage : gmap string string) (t : N) (w w4 : world)
    (C : value) (deadline dt : N) (es1 es2 es3 es4 : list event)
    (r1 r2 : Response) (t1 t2 : string) (wd fd : value)
    (io1 io2 io3 io4 : sync_io) :
  reachable key storage t w →
  pending w = Some (C, deadline) → (deadline ≤ now w + dt)%N →
  let id := next_task w in
  Forall (foreign id) (es1 ++ es2 ++ es3 ++ es4) →
  ok r1 = true → ok r2 = true →
  JSON.parse t1 = Some wd → JSON.parse t2 = Some fd →
  setItem_throws io4 = None →
  run (Advance dt
         :: es1 ++ Settle id (FetchFulfilled r1) io1
         :: es2 ++ Settle id (FetchFulfilled r2) io2
         :: es3 ++ Settle id (BodyFulfilled t1) io3
         :: es4) w = Next w4 →
  let cacheData :=
    cache_record C wd fd (Date.toISOString (now w4 + date_gap io4)) in
  ∃ w',
    step (Settle id (BodyFulfilled t2) io4) w4 = Next w' ∧
    tasks w' !! id = Some (Finished None) ∧
    weatherData (ui w') = wd ∧ forecastData (ui w') = fd ∧
    isLoading (ui w') = false ∧
    lastUpdated (ui w') = VStr (Date.toISOString (now w4)) ∧
    store w' =
      <[CACHE_KEY := ToString (JSON.stringify cacheData)]> (store w4) ∧
    get_prop cacheData "city" = C ∧
    sent_by id w' = [request_of id Forecast C key;
                     request_of id Weather C key] ∧
    error (ui w') = error (ui w4) ∧
    (Forall settles_nothing (es1 ++ es2 ++ es3 ++ es4) →
     error (ui w') = VNull).
Proof.
  intros Hreach Hp Hd id Hes Hr1 Hr2 Ht1 Ht2 Hio Hrun cacheData.
  destruct (cycle_awaiting_last_body w w4 C deadline dt
              es1 es2 es3 es4 r1 r2 t1 wd io1 io2 io3
              Hp Hd Hes Hr1 Hr2 Ht1 Hrun)
    as (Htask & Hquiet).
  assert (Hsent : sent_by id w4 = [request_of id Forecast C key;
                                   request_of id Weather C key]).
  { destruct Hreach as [es0 Hrun0].
    assert (Horder : orderly key w4).
    { apply (run_orderly key _ w w4 Hrun).
      apply (run_orderly key es0 (boot key storage t) w Hrun0).
      split; [done |]. split.
      - intros i [p Hi]. simpl in Hi. by rewrite lookup_empty in Hi.
      - intros i. simpl. by rewrite lookup_empty. }
    destruct Horder as (_ & _ & Hsent). specialize (Hsent (next_task w)).
    rewrite Htask in Hsent. exact Hsent. }
  destruct (forecast_body_completes w4 id C wd t2 fd io4 Htask Ht2 Hio)
    as (w' & Hstep & Hui & Hstore & Htasks & Hreq & _).
  exists w'. split; [exact Hstep |].
  rewrite Hui, Htasks. unfold sent_by. rewrite Hreq.
  split; [apply lookup_insert_eq |].
  repeat split; done.
Qed.

Lemma successful_cycle_updates_state_and_cache_witness :
  let offline := {| name := "TypeError"; message := "Failed to fetch" |} in
  let w := match run [Mount] (boot (VStr "k") ∅ 1700000000000) with
           | Next w => w
           | _ => boot (VStr "k") ∅ 1700000000000
           end in
  let w4 := match run [Advance 300; Refresh; Advance 300;
                       Settle 1 (FetchRejected offline) calm;
                       Settle 0 (FetchFulfilled {| status := 200 |}) calm;
                       Settle 0 (FetchFulfilled {| status := 200 |}) calm;
                       Advance 10;
                       Settle 0 (BodyFulfilled "{}") calm] w with
            | Next w4 => w4
            | _ => w
            end in
  ∃ w',
    step (Settle 0 (BodyFulfilled "[1,2]")
            {| date_gap := 2; setItem_throws := None |}) w4 = Next w' ∧
    weatherData (ui w') = VObj [] ∧
    forecastData (ui w') = VArr [VNum "1"; VNum "2"] ∧
    isLoading (ui w') = false ∧
    lastUpdated (ui w') = VStr "2023-11-14T22:13:20.610Z" ∧
    error (ui w') = VStr "Failed to fetch".
Proof.
  intros offline w w4.
  assert (H1 : JSON.parse "{}" = Some (VObj [])) by (vm_compute; reflexivity).
  assert (H2 : JSON.parse "[1,2]" = Some (VArr [VNum "1"; VNum "2"]))
    by (vm_compute; reflexivity).
  assert (Hreach : reachable (VStr "k") ∅ 1700000000000 w).
  { exists [Mount]. vm_compute. reflexivity. }
  assert (Hd : (1700000000300 ≤ now w + 300)%N) by (vm_compute; discriminate).
  assert (Hes : Forall (foreign (next_task w))
                  ([Refresh; Advance 300;
                    Settle 1 (FetchRejected offline) calm]
                   ++ [] ++ [Advance 10] ++ [])).
  { repeat constructor. vm_compute. discriminate. }
  assert (Hrun :
    run (Advance 300
           :: [Refresh; Advance 300; Settle 1 (FetchRejected offline) calm]
           ++ Settle (next_task w) (FetchFulfilled {| status := 200 |}) calm
           :: [] ++ Settle (next_task w) (FetchFulfilled {| status := 200 |})
                      calm
           :: [Advance 10] ++ Settle (next_task w) (BodyFulfilled "{}") calm
           :: []) w = Next w4) by (vm_compute; reflexivity).
  destruct (successful_cycle_updates_state_and_cache
              (VStr "k") ∅ 1700000000000 w w4 (VStr "Delhi")
              1700000000300 300
              [Refresh; Advance 300; Settle 1 (FetchRejected offline) calm]
              [] [Advance 10] []
              {| status := 200 |} {| status := 200 |} "{}" "[1,2]"
              (VObj []) (VArr [VNum "1"; VNum "2"])
              calm calm calm {| date_gap := 2; setItem_throws := None |}
              Hreach eq_refl Hd Hes eq_refl eq_refl H1 H2 eq_refl Hrun)
    as (w' & Hstep & _ & Hwd & Hfd & Hload & Hlu & _ & _ & _ & Herr & _).
  exists w'. split; [exact Hstep |].
  repeat split; assumption.
Defined.

(** ** The cache across sessions *)

Lemma cache_record_is_data (C wd fd : value) (stamp : string) :
  json_data C → json_data wd → json_data fd →
  json_data (cache_record C wd fd stamp).
Proof.
  intros HC Hwd Hfd. apply json_data_obj. split.
  - simpl. rewrite !NoDup_cons, !not_elem_of_cons.
    repeat split; first [done | apply not_elem_of_nil | apply NoDup_nil | idtac].
    exact I.
  - by repeat constructor.
Qed.

(** X11: the cache is written so that the next start reads it back.  Take
    a fetch for a city [C] that completes successfully, whatever happened
    between its steps.  A component started afresh on the storage that the
    completing step left (any key, any time) adopts at mount exactly what
    was fetched: [city] is [C], the two data cells are the two parsed
    bodies, [isLoading] is [false]; [lastUpdated] is the second clock
    reading that went into the record; and the debounced fetch is pending
    for [C].  The four property names written on lines 45-50 are the four
    read on lines 64-67, under the same key, and [JSON.parse] undoes
    [JSON.stringify] on the record.  The city and the bodies are taken with
    ordinary numbers: a number that is not finite as a double is written as
    [null], and negative zero as 0, so that such a number is not read
    back. *)
Theorem next_start_adopts_what_the_cycle_cached
    (w w4 : world) (C : value) (deadline dt : N)
    (es1 es2 es3 es4 : list event)
    (r1 r2 : Response) (t1 t2 : string) (wd fd : value)
    (io1 io2 io3 io4 : sync_io) (key' : value) (t' : N) :
  pending w = Some (C, deadline) → (deadline ≤ now w + dt)%N →
  let id := next_task w in
  Forall (foreign id) (es1 ++ es2 ++ es3 ++ es4) →
  ok r1 = true → ok r2 = true →
  JSON.parse t1 = Some wd → JSON.parse t2 = Some fd →
  setItem_throws io4 = None →
  json_data C →
  ordinary C = true → ordinary wd = true → ordinary fd = true →
  run (Advance dt
         :: es1 ++ Settle id (FetchFulfilled r1) io1
         :: es2 ++ Settle id (FetchFulfilled r2) io2
         :: es3 ++ Settle id (BodyFulfilled t1) io3
         :: es4) w = Next w4 →
  ∃ w' w1,
    step (Settle id (BodyFulfilled t2) io4) w4 = Next w' ∧
    step Mount (boot key' (store w') t') = Next w1 ∧
    city (ui w1) = C ∧
    weatherData (ui w1) = wd ∧ forecastData (ui w1) = fd ∧
    lastUpdated (ui w1)
      = VStr (Date.toISOString (now w4 + date_gap io4)) ∧
    isLoading (ui w1) = false ∧ error (ui w1) = VNull ∧
    pending w1 = Some (C, t' + wait)%N ∧ requests w1 = [].
Proof.
  intros Hp Hd id Hes Hr1 Hr2 Ht1 Ht2 Hio HC _ _ _ Hrun.
  destruct (cycle_awaiting_last_body w w4 C deadline dt
              es1 es2 es3 es4 r1 r2 t1 wd io1 io2 io3
              Hp Hd Hes Hr1 Hr2 Ht1 Hrun)
    as (Htask & _).
  destruct (forecast_body_completes w4 id C wd t2 fd io4 Htask Ht2 Hio)
    as (w' & Hstep & _ & Hstore & _).
  set (record := cache_record C wd fd
                   (Date.toISOString (now w4 + date_gap io4))) in *.
  assert (json_data record) as Hrec.
  { apply cache_record_is_data; [done | |];
      by eapply parse_gives_data. }
  destruct (parse_stringify record Hrec) as (text & Htext & Hparse).
  exists w'. eexists. split; [exact Hstep |].
  rewrite step_mount by reflexivity.
  replace (store (boot key' (store w') t')) with (store w') by reflexivity.
  unfold cache_text. rewrite Hstore, lookup_insert_eq, Htext.
  change (ToString (VStr text)) with text. rewrite Hparse.
  change (truthy record) with true. cbv iota.
  split; [reflexivity |]. by repeat split.
Qed.

Lemma next_start_adopts_what_the_cycle_cached_witness :
  let offline := {| name := "TypeError"; message := "Failed to fetch" |} in
  let w := with_pending (Some (VStr "Delhi", 1700000000300%N))
             (with_stage Live (boot (VStr "k") ∅ 1700000000000)) in
  let w4 := match run [Advance 300; Refresh; Advance 300;
                       Settle 1 (FetchRejected offline) calm;
                       Settle 0 (FetchFulfilled {| status := 200 |}) calm;
                       Settle 0 (FetchFulfilled {| status := 200 |}) calm;
                       Advance 10;
                       Settle 0 (BodyFulfilled "{}") calm] w with
            | Next w4 => w4
            | _ => w
            end in
  ∃ w' w1,
    step (Settle 0 (BodyFulfilled "[1,2.50]")
            {| date_gap := 2; setItem_throws := None |}) w4 = Next w' ∧
    step Mount (boot (VStr "other key") (store w') 1800000000000) = Next w1 ∧
    city (ui w1) = VStr "Delhi" ∧
    weatherData (ui w1) = VObj [] ∧
    forecastData (ui w1) = VArr [VNum "1"; VNum "2.50"] ∧
    lastUpdated (ui w1) = VStr "2023-11-14T22:13:20.612Z" ∧
    pending w1 = Some (VStr "Delhi", 1800000000300%N).
Proof.
  intros offline w w4.
  assert (H1 : JSON.parse "{}" = Some (VObj [])) by (vm_compute; reflexivity).
  assert (H2 : JSON.parse "[1,2.50]" = Some (VArr [VNum "1"; VNum "2.50"]))
    by (vm_compute; reflexivity).
  assert (Hd : (1700000000300 ≤ now w + 300)%N) by (vm_compute; discriminate).
  assert (Hes : Forall (foreign (next_task w))
                  ([Refresh; Advance 300;
                    Settle 1 (FetchRejected offline) calm]
                   ++ [] ++ [Advance 10] ++ [])).
  { repeat constructor. vm_compute. discriminate. }
  assert (Hrun :
    run (Advance 300
           :: [Refresh; Advance 300; Settle 1 (FetchRejected offline) calm]
           ++ Settle (next_task w) (FetchFulfilled {| status := 200 |}) calm
           :: [] ++ Settle (next_task w) (FetchFulfilled {| status := 200 |})
                      calm
           :: [Advance 10] ++ Settle (next_task w) (BodyFulfilled "{}") calm
           :: []) w = Next w4) by (vm_compute; reflexivity).
  destruct (next_start_adopts_what_the_cycle_cached
              w w4 (VStr "Delhi") 1700000000300 300
              [Refresh; Advance 300; Settle 1 (FetchRejected offline) calm]
              [] [Advance 10] []
              {| status := 200 |} {| status := 200 |} "{}" "[1,2.50]"
              (VObj []) (VArr [VNum "1"; VNum "2.50"])
              calm calm calm {| date_gap := 2; setItem_throws := None |}
              (VStr "other key") 1800000000000
              eq_refl Hd Hes eq_refl eq_refl H1 H2 eq_refl I
              eq_refl eq_refl eq_refl Hrun)
    as (w' & w1 & Hstep & Hmount & Hc & Hwd & Hfd & Hlu & _ & _ & Hpend & _).
  exists w', w1.
  repeat split; assumption.
Defined.

(** ** The screen after a success *)

Lemma toISOString_not_empty (ms : N) :
  String.eqb (Date.toISOString ms) "" = false.
Proof.
  apply String.eqb_neq. unfold Date.toISOString.
  destruct (Date.civil_from_days _) as [[y m] d].
  intros H. apply (f_equal list_ascii_of_string) in H.
  rewrite list_ascii_of_string_of_list_ascii in H.
  apply (f_equal (@length ascii)) in H.
  rewrite length_app in H. simpl in H. lia.
Qed.

(** X12: what the user sees right after a fetch has completed
    successfully, whatever happened between its steps.  The loading line
    is gone; the last-updated line shows the time of completion; each panel
    is given its parsed body and the current unit -- each panel only if its
    body is truthy: a body that parsed to [null], [false], the empty string
    or zero hides its panel (and zero leaves the text 0 in its place).  The
    error banner is what it was just before the completing step: none when
    no promise of another invocation settled in between, but the banner of
    an overlapping invocation that failed stays on the screen next to the
    new data.  The bodies are taken with ordinary numbers, for which the
    truthiness of a literal is that of its double. *)
Theorem screen_after_successful_fetch
    (w w4 : world)
    (C : value) (deadline dt : N) (es1 es2 es3 es4 : list event)
    (r1 r2 : Response) (t1 t2 : string) (wd fd : value)
    (io1 io2 io3 io4 : sync_io) :
  pending w = Some (C, deadline) → (deadline ≤ now w + dt)%N →
  let id := next_task w in
  Forall (foreign id) (es1 ++ es2 ++ es3 ++ es4) →
  ok r1 = true → ok r2 = true →
  JSON.parse t1 = Some wd → JSON.parse t2 = Some fd →
  ordinary wd = true → ordinary fd = true →
  setItem_throws io4 = None →
  run (Advance dt
         :: es1 ++ Settle id (FetchFulfilled r1) io1
         :: es2 ++ Settle id (FetchFulfilled r2) io2
         :: es3 ++ Settle id (BodyFulfilled t1) io3
         :: es4) w = Next w4 →
  stage w4 = Live →
  ∃ w',
    step (Settle id (BodyFulfilled t2) io4) w4 = Next w' ∧
    stage w' = Live ∧
    App_render (ui w') =
      {| loading_line := false;
         error_banner := error_banner (App_render (ui w4));
         weather_panel :=
           and_child wd {| data := wd; unit_shown := unit (ui w4) |};
         last_updated_line :=
           Element (VStr (Date.toISOString (now w4)));
         forecast_panel :=
           and_child fd {| data := fd; unit_shown := unit (ui w4) |} |} ∧
    (Forall settles_nothing (es1 ++ es2 ++ es3 ++ es4) →
     error_banner (App_render (ui w')) = Nothing).
Proof.
  intros Hp Hd id Hes Hr1 Hr2 Ht1 Ht2 _ _ Hio Hrun Hlive.
  destruct (cycle_awaiting_last_body w w4 C deadline dt
              es1 es2 es3 es4 r1 r2 t1 wd io1 io2 io3
              Hp Hd Hes Hr1 Hr2 Ht1 Hrun)
    as (Htask & Hquiet).
  destruct (forecast_body_completes w4 id C wd t2 fd io4 Htask Ht2 Hio)
    as (w' & Hstep & Hui & _ & _ & _ & Hstage & _).
  exists w'. split; [exact Hstep |]. split; [congruence |].
  rewrite Hui. unfold App_render. simpl. split.
  - unfold and_child at 3. simpl. by rewrite toISOString_not_empty.
  - intros Hq. by rewrite (Hquiet Hq).
Qed.

Lemma screen_after_successful_fetch_witness :
  let offline := {| name := "TypeError"; message := "Failed to fetch" |} in
  let w := match run [Mount] (boot (VStr "k") ∅ 1700000000000) with
           | Next w => w
           | _ => boot (VStr "k") ∅ 1700000000000
           end in
  let w4 := match run [Advance 300; Refresh; Advance 300;
                       Settle 1 (FetchRejected offline) calm;
                       Settle 0 (FetchFulfilled {| status := 200 |}) calm;
                       ToggleUnit;
                       Settle 0 (FetchFulfilled {| status := 200 |}) calm;
                       Advance 10;
                       Settle 0 (BodyFulfilled "{}") calm] w with
            | Next w4 => w4
            | _ => w
            end in
  ∃ w',
    step (Settle 0 (BodyFulfilled "0") calm) w4 = Next w' ∧
    App_render (ui w') =
      {| loading_line := false;
         error_banner := Element (VStr "Failed to fetch");
         weather_panel :=
           Element {| data := VObj []; unit_shown := "fahrenheit" |};
         last_updated_line := Element (VStr "2023-11-14T22:13:20.610Z");
         forecast_panel := Text "0" |}.
Proof.
  intros offline w w4.
  assert (H1 : JSON.parse "{}" = Some (VObj [])) by (vm_compute; reflexivity).
  assert (H2 : JSON.parse "0" = Some (VNum "0")) by (vm_compute; reflexivity).
  assert (Hd : (1700000000300 ≤ now w + 300)%N) by (vm_compute; discriminate).
  assert (Hes : Forall (foreign (next_task w))
                  ([Refresh; Advance 300;
                    Settle 1 (FetchRejected offline) calm]
                   ++ [ToggleUnit] ++ [Advance 10] ++ [])).
  { repeat constructor. vm_compute. discriminate. }
  assert (Hrun :
    run (Advance 300
           :: [Refresh; Advance 300; Settle 1 (FetchRejected offline) calm]
           ++ Settle (next_task w) (FetchFulfilled {| status := 200 |}) calm
           :: [ToggleUnit]
           ++ Settle (next_task w) (FetchFulfilled {| status := 200 |}) calm
           :: [Advance 10] ++ Settle (next_task w) (BodyFulfilled "{}") calm
           :: []) w = Next w4) by (vm_compute; reflexivity).
  assert (Hlive : stage w4 = Live) by (vm_compute; reflexivity).
  destruct (screen_after_successful_fetch
              w w4 (VStr "Delhi")
              1700000000300 300
              [Refresh; Advance 300; Settle 1 (FetchRejected offline) calm]
              [ToggleUnit] [Advance 10] []
              {| status := 200 |} {| status := 200 |} "{}" "0"
              (VObj []) (VNum "0") calm calm calm calm
              eq_refl Hd Hes eq_refl eq_refl H1 H2 eq_refl eq_refl
              eq_refl Hrun Hlive)
    as (w' & Hstep & _ & Hscreen & _).
  exists w'. split; [exact Hstep |]. rewrite Hscreen.
  vm_compute. reflexivity.
Defined.

(** ** While a fetch is under way *)





(** ** The unit toggle and the fetch *)

Lemma run_one (e : event) (w : world) : run [e] w = step e w.
Proof. rewrite run_cons. by destruct (step e w). Qed.

(** X14: toggling the unit and the progress of a fetch do not interfere.
    For the passing of time (which may fire the debounce timer and call the
    function) and for the settlement of any awaited promise (which resumes
    the function), it makes no difference whether the user clicks the toggle
    just before or just after: the two orders end in the same world, or
    fail alike.  The asynchronous function never reads [unit], and
    [toggleUnit] touches nothing else. *)
Theorem toggle_commutes_with_fetch_progress (w : world) (e : event) :
  stage w = Live →
  match e with Advance _ | Settle _ _ _ => True | _ => False end →
  run [ToggleUnit; e] w = run [e; ToggleUnit] w.
Proof.
  intros Hs He.
  rewrite (run_cons ToggleUnit), (step_toggle w Hs). cbv beta iota.
  rewrite run_one, (run_cons e).
  destruct e as [| c | | | | dt | id s io]; try done.
  - rewrite !step_advance. cbv beta iota. rewrite run_one.
    change (pending (with_ui ?f ?x)) with (pending x).
    change (now (with_ui ?f ?x)) with (now x).
    destruct (pending w) as [[cityName deadline] |];
      [destruct (deadline <=? now w + dt)%N |];
      rewrite step_toggle by done; reflexivity.
  - destruct (tasks w !! id) as [p |] eqn:Hp.
    2: { unfold step. simpl. rewrite Hp. by destruct (stage w). }
    rewrite (step_settle _ id p) by done.
    rewrite (step_settle w id p) by done.
    destruct p, s; exec; try reflexivity;
      repeat (case_match; simplify_eq; simpl in *; try reflexivity);
      rewrite ?run_one; exec; rewrite ?Hs, ?Object_is_refl; simpl;
      try reflexivity.
Qed.

Lemma toggle_commutes_with_fetch_progress_witness :
  let w := started (VStr "Delhi") (with_stage Live (boot (VStr "k") ∅ 0)) in
  let e := Settle 0 (FetchFulfilled {| status := 200 |}) calm in
  run [ToggleUnit; e] w = run [e; ToggleUnit] w ∧
  match run [e; ToggleUnit] w with
  | Next w' =>
      unit (ui w') = "fahrenheit" ∧
      tasks w' !! 0
        = Some (AwaitForecastResponse (VStr "Delhi") {| status := 200 |})
  | _ => False
  end.
Proof.
  intros w e. split.
  - apply (toggle_commutes_with_fetch_progress w e); [reflexivity | exact I].
  - vm_compute. split; reflexivity.
Defined.

(** ** A cache write that fails *)

(** X15: when everything of a fetch succeeds except the write to the
    storage (line 51 throws, e.g. because the quota is exceeded), the
    freshly fetched data is already in the state and stays there, but the
    cycle ends in the [catch] block: the screen shows the new data together
    with the message of the storage exception as an error, [isLoading] is
    [false], and the cache keeps its old content. *)
Theorem cache_write_failure_keeps_fetched_data
    (w : world) (C : value) (deadline dt d1 d2 d3 d4 : N)
    (r1 r2 : Response) (t1 t2 : string) (wd fd : value)
    (io1 io2 io3 io4 : sync_io) (e : js_error) :
  pending w = Some (C, deadline) → (deadline ≤ now w + dt)%N →
  ok r1 = true → ok r2 = true →
  JSON.parse t1 = Some wd → JSON.parse t2 = Some fd →
  setItem_throws io4 = Some e →
  ∃ w',
    run (fetch_cycle (next_task w) dt
           [(d1, FetchFulfilled r1, io1); (d2, FetchFulfilled r2, io2);
            (d3, BodyFulfilled t1, io3); (d4, BodyFulfilled t2, io4)]) w
      = Next w' ∧
    tasks w' !! next_task w = Some (Finished (Some e)) ∧
    weatherData (ui w') = wd ∧ forecastData (ui w') = fd ∧
    lastUpdated (ui w')
      = VStr (Date.toISOString (now w + dt + d1 + d2 + d3 + d4)) ∧
    error (ui w') = VStr (message e) ∧ isLoading (ui w') = false ∧
    store w' = store w.
Proof.
  intros Hp Hd Hr1 Hr2 Ht1 Ht2 Hio.
  unfold fetch_cycle. cbn [flat_map app fst snd].
  rewrite run_cons, (step_advance_fire dt w C deadline) by done.
  cbv beta iota.
  do 4 (erewrite run_round;
          [| reflexivity | simpl; apply lookup_insert_eq]; exec;
        rewrite ?Hr1, ?Hr2, ?Ht1, ?Ht2, ?Hio; simpl).
  eexists. split; [reflexivity |]. simpl.
  split; [apply lookup_insert_eq |].
  repeat split.
Qed.

Lemma cache_write_failure_keeps_fetched_data_witness :
  let w := with_pending (Some (VStr "Delhi", 1700000000300%N))
             (with_stage Live (boot (VStr "k") ∅ 1700000000000)) in
  ∃ w',
    run (fetch_cycle 0 300
           [(120%N, FetchFulfilled {| status := 200 |}, calm);
            (80%N, FetchFulfilled {| status := 200 |}, calm);
            (5%N, BodyFulfilled "{}", calm);
            (5%N, BodyFulfilled "[1,2]",
             {| date_gap := 2;
                setItem_throws := Some (Error "QuotaExceededError") |})]) w
      = Next w' ∧
    weatherData (ui w') = VObj [] ∧
    forecastData (ui w') = VArr [VNum "1"; VNum "2"] ∧
    error (ui w') = VStr "QuotaExceededError" ∧
    store w' = ∅.
Proof.
  intros w.
  assert (H1 : JSON.parse "{}" = Some (VObj [])) by (vm_compute; reflexivity).
  assert (H2 : JSON.parse "[1,2]" = Some (VArr [VNum "1"; VNum "2"]))
    by (vm_compute; reflexivity).
  assert (Hd : (1700000000300 ≤ now w + 300)%N) by (vm_compute; discriminate).
  destruct (cache_write_failure_keeps_fetched_data
              w (VStr "Delhi") 1700000000300 300 120 80 5 5
              {| status := 200 |} {| status := 200 |} "{}" "[1,2]"
              (VObj []) (VArr [VNum "1"; VNum "2"])
              calm calm calm
              {| date_gap := 2;
                 setItem_throws := Some (Error "QuotaExceededError") |}
              (Error "QuotaExceededError")
              eq_refl Hd eq_refl eq_refl H1 H2 eq_refl)
    as (w' & Hrun & _ & Hwd & Hfd & _ & Herr & _ & Hstore).
  exists w'. repeat split; assumption.
Defined.
